(** * XOXOTICCTACTOE: the board and the minimax engine of [script.cpp]

    A shallow embedding of the classes [Board] and [AIEngine], of
    [AIPlayer::getMaxDepth] and of the turn loop of [Game::play], followed
    by the properties of the search that the design document states. *)

From Stdlib Require Import ZArith Ascii List Lia Bool Sorted.
From stdpp Require Import base option list sets.

Local Open Scope Z_scope.

(** ** The C++ [int]: 32 bits, two's complement *)

Module Int32.

Definition INT_MIN : Z := -2147483648.
Definition INT_MAX : Z := 2147483647.

(** The value an out-of-range result takes once it is stored in an [int]. *)
Definition wrap (z : Z) : Z := (z + 2147483648) mod 4294967296 - 2147483648.

Definition add (a b : Z) : Z := wrap (a + b).
Definition sub (a b : Z) : Z := wrap (a - b).
Definition mul (a b : Z) : Z := wrap (a * b).

Definition in_range (z : Z) : Prop := INT_MIN <= z <= INT_MAX.

End Int32.

(** ** class Board *)

Module Board.

(** [static constexpr char EMPTY = ' '] *)
Definition EMPTY : ascii := " "%char.

(** The two markers [checkWinner] returns besides a cell symbol:
    ['D'] for a draw and ['\0'] for no winner. *)
Definition DRAW : ascii := "D"%char.
Definition NO_WINNER : ascii := "000"%char.

Record t : Type := mk {
  size : Z;
  cells : list ascii;
  winLines : list (list Z)
}.

(** [generateWinLines]: the rows, then the columns, then the two
    diagonals, every [push_back] an append at the end. *)
Definition generateWinLines (n : Z) : list (list Z) :=
  let rows :=
    fold_left (fun wl r =>
      wl ++ [fold_left (fun line c => line ++ [Int32.add (Int32.mul r n) c])
                       (seqZ 0 n) []])
      (seqZ 0 n) [] in
  let cols :=
    fold_left (fun wl c =>
      wl ++ [fold_left (fun line r => line ++ [Int32.add (Int32.mul r n) c])
                       (seqZ 0 n) []])
      (seqZ 0 n) rows in
  let diags :=
    fold_left (fun (d : list Z * list Z) i =>
      (d.1 ++ [Int32.add (Int32.mul i n) i],
       d.2 ++ [Int32.add (Int32.mul i n) (Int32.sub (Int32.sub n 1) i)]))
      (seqZ 0 n) ([], []) in
  (cols ++ [diags.1]) ++ [diags.2].

(** The constructor [Board(int boardSize)]; [None] is the
    [invalid_argument] it throws. *)
Definition create (boardSize : Z) : option t :=
  if (boardSize <? 3) || (6 <? boardSize) then None
  else Some {| size := boardSize;
               cells := replicate (Z.to_nat (Int32.mul boardSize boardSize)) EMPTY;
               winLines := generateWinLines boardSize |}.

Definition getSize (b : t) : Z := size b.
Definition getWinLines (b : t) : list (list Z) := winLines b.

(** [cells[index]]. The source does not check the index; outside the
    vector the read is undefined there, and yields ['\0'] here. *)
Definition get (b : t) (index : Z) : ascii :=
  if index <? 0 then NO_WINNER
  else default NO_WINNER (cells b !! Z.to_nat index).

(** [cells[index] = symbol]. Outside the vector the write is undefined
    in the source, and leaves the board as it is here. *)
Definition set (b : t) (index : Z) (symbol : ascii) : t :=
  if index <? 0 then b
  else {| size := size b;
          cells := <[Z.to_nat index := symbol]> (cells b);
          winLines := winLines b |}.

Definition isEmpty (b : t) (index : Z) : bool :=
  Ascii.eqb (get b index) EMPTY.

Definition isFull (b : t) : bool :=
  forallb (fun c => negb (Ascii.eqb c EMPTY)) (cells b).

Definition getEmptyCells (b : t) : list Z :=
  fold_left (fun empty i =>
               if Ascii.eqb (get b i) EMPTY then empty ++ [i] else empty)
            (seqZ 0 (Z.of_nat (length (cells b)))) [].

(** The loop of [checkWinner] over the win lines, [Some first] when it
    returns from inside the loop. *)
Fixpoint checkLines (b : t) (lines : list (list Z)) : option ascii :=
  match lines with
  | [] => None
  | line :: rest =>
      let first := get b (hd 0 line) in
      if Ascii.eqb first EMPTY then checkLines b rest
      else if forallb (fun idx => Ascii.eqb (get b idx) first) line
           then Some first
           else checkLines b rest
  end.

Definition checkWinner (b : t) : ascii :=
  match checkLines b (winLines b) with
  | Some first => first
  | None => if isFull b then DRAW else NO_WINNER
  end.

(** [copy]: a new board of the same size, then the cells assigned. *)
Definition copy (b : t) : option t :=
  match create (size b) with
  | Some newBoard =>
      Some {| size := size newBoard; cells := cells b;
              winLines := winLines newBoard |}
  | None => None
  end.

End Board.

(** ** class AIEngine *)

Record AIEngine : Type := mkAIEngine {
  aiSymbol : ascii;
  humanSymbol : ascii;
  maxDepth : Z
}.

Definition WIN_SCORE : Z := 1000000.
Definition LOSS_SCORE : Z := -1000000.

(** The inner loop of [evaluateBoard]: the pair [(myCount, oppCount)] of
    one line. *)
Definition countLine (e : AIEngine) (b : Board.t) (line : list Z) : Z * Z :=
  fold_left (fun (cnt : Z * Z) idx =>
               let val := Board.get b idx in
               if Ascii.eqb val (aiSymbol e) then (Int32.add cnt.1 1, cnt.2)
               else if Ascii.eqb val (humanSymbol e) then (cnt.1, Int32.add cnt.2 1)
               else cnt)
            line (0, 0).

(** One turn of the outer loop of [evaluateBoard]: the score after [line]. *)
Definition scoreLine (e : AIEngine) (b : Board.t) (score : Z) (line : list Z) : Z :=
  let n := Board.getSize b in
  let myCount := (countLine e b line).1 in
  let oppCount := (countLine e b line).2 in
  if (0 <? myCount) && (0 <? oppCount) then score
  else
    let score :=
      if 0 <? myCount then
        if myCount =? n then Int32.add score WIN_SCORE
        else if myCount =? Int32.sub n 1 then Int32.add score 50000
        else if myCount =? Int32.sub n 2 then Int32.add score 1000
        else if 2 <=? myCount then Int32.add score 10
        else score
      else score in
    if 0 <? oppCount then
      if oppCount =? n then Int32.sub score WIN_SCORE
      else if oppCount =? Int32.sub n 1 then Int32.sub score 55000
      else if oppCount =? Int32.sub n 2 then Int32.sub score 2000
      else if 2 <=? oppCount then Int32.sub score 20
      else score
    else score.

Definition evaluateBoard (e : AIEngine) (b : Board.t) : Z :=
  fold_left (scoreLine e b) (Board.getWinLines b) 0.

(** The searches mutate the one board they are given, so every function
    of the engine that writes returns the board it leaves behind next to
    its result. [None] stands for a call that does not return within the
    recursion depth [fuel]. *)
Definition search : Type := option (Z * Board.t).

(** The maximizing loop of [minimax] over the remaining empty cells;
    [rec] is the recursive call one ply down. *)
Fixpoint maxLoop (e : AIEngine) (rec : Board.t -> Z -> Z -> bool -> search)
    (emptyCells : list Z) (board : Board.t) (maxEval alpha beta : Z) : search :=
  match emptyCells with
  | [] => Some (maxEval, board)
  | i :: rest =>
      match rec (Board.set board i (aiSymbol e)) alpha beta false with
      | None => None
      | Some (evalScore, board) =>
          let board := Board.set board i Board.EMPTY in
          let maxEval := Z.max maxEval evalScore in
          let alpha := Z.max alpha evalScore in
          if beta <=? alpha then Some (maxEval, board)
          else maxLoop e rec rest board maxEval alpha beta
      end
  end.

(** The minimizing loop of [minimax]. *)
Fixpoint minLoop (e : AIEngine) (rec : Board.t -> Z -> Z -> bool -> search)
    (emptyCells : list Z) (board : Board.t) (minEval alpha beta : Z) : search :=
  match emptyCells with
  | [] => Some (minEval, board)
  | i :: rest =>
      match rec (Board.set board i (humanSymbol e)) alpha beta true with
      | None => None
      | Some (evalScore, board) =>
          let board := Board.set board i Board.EMPTY in
          let minEval := Z.min minEval evalScore in
          let beta := Z.min beta evalScore in
          if beta <=? alpha then Some (minEval, board)
          else minLoop e rec rest board minEval alpha beta
      end
  end.

Fixpoint minimax (fuel : nat) (e : AIEngine) (board : Board.t)
    (depth alpha beta : Z) (isMaximizing : bool) : search :=
  match fuel with
  | O => None
  | S fuel =>
      let winner := Board.checkWinner board in
      if Ascii.eqb winner (aiSymbol e) then Some (WIN_SCORE, board)
      else if Ascii.eqb winner (humanSymbol e) then Some (LOSS_SCORE, board)
      else if Ascii.eqb winner Board.DRAW then Some (0, board)
      else if depth =? 0 then Some (evaluateBoard e board, board)
      else
        let emptyCells := Board.getEmptyCells board in
        let rec := fun b a be m => minimax fuel e b (Int32.sub depth 1) a be m in
        if isMaximizing
        then maxLoop e rec emptyCells board Int32.INT_MIN alpha beta
        else minLoop e rec emptyCells board Int32.INT_MAX alpha beta
  end.

(** The loop of [getBestMove]: the pair [(bestScore, bestMove)]. *)
Fixpoint bestLoop (fuel : nat) (e : AIEngine) (emptyCells : list Z)
    (board : Board.t) (bestScore bestMove : Z) : search :=
  match emptyCells with
  | [] => Some (bestMove, board)
  | i :: rest =>
      match minimax fuel e (Board.set board i (aiSymbol e)) (maxDepth e)
                    Int32.INT_MIN Int32.INT_MAX false with
      | None => None
      | Some (score, board) =>
          let board := Board.set board i Board.EMPTY in
          if bestScore <? score
          then bestLoop fuel e rest board score i
          else bestLoop fuel e rest board bestScore bestMove
      end
  end.

Definition getBestMove (fuel : nat) (e : AIEngine) (board : Board.t) : search :=
  bestLoop fuel e (Board.getEmptyCells board) board Int32.INT_MIN (-1).

(** ** class AIPlayer *)

Definition getMaxDepth (boardSize : Z) : Z :=
  if boardSize =? 3 then 100
  else if boardSize =? 4 then 6
  else if boardSize =? 5 then 5
  else if boardSize =? 6 then 4
  else 4.

(** The engine [Game] builds: [ai('X', 'O', boardSize)]. *)
Definition gameEngine (boardSize : Z) : AIEngine :=
  {| aiSymbol := "X"%char; humanSymbol := "O"%char; maxDepth := getMaxDepth boardSize |}.

Definition board3 : Board.t :=
  {| Board.size := 3; Board.cells := replicate 9 Board.EMPTY;
     Board.winLines := Board.generateWinLines 3 |}.


(** ** class HumanPlayer, class AIPlayer and class Game *)

(** [currentPlayer] points to [human] or to [ai]. *)
Inductive Player : Type := Human | AI.

Definition otherPlayer (p : Player) : Player :=
  match p with Human => AI | AI => Human end.

(** [HumanPlayer::getMove]: the integers typed at the prompt are [input];
    an entry out of range or on a taken cell is refused and the next one is
    read. [None] when the input ends before a legal move. *)
Fixpoint humanGetMove (board : Board.t) (input : list Z) : option (Z * list Z) :=
  let maxIndex := Int32.sub (Int32.mul (Board.getSize board) (Board.getSize board)) 1 in
  match input with
  | [] => None
  | move :: input =>
      if (move <? 0) || (maxIndex <? move) then humanGetMove board input
      else if negb (Board.isEmpty board move) then humanGetMove board input
      else Some (move, input)
  end.

(** The [while (true)] loop of [Game::play], at most [turns] times round;
    the board on which the outcome is announced. *)
Fixpoint playLoop (turns fuel : nat) (ai : AIEngine) (human : ascii)
    (board : Board.t) (currentPlayer : Player) (input : list Z) : option Board.t :=
  match turns with
  | O => None
  | S turns =>
      if Board.isFull board then Some board
      else
        let moved :=
          match currentPlayer with
          | Human =>
              match humanGetMove board input with
              | Some (move, input) => Some (move, human, board, input)
              | None => None
              end
          | AI =>
              match getBestMove fuel ai board with
              | Some (move, board) => Some (move, aiSymbol ai, board, input)
              | None => None
              end
          end in
        match moved with
        | None => None
        | Some (move, symbol, board, input) =>
            let board := Board.set board move symbol in
            let winner := Board.checkWinner board in
            if negb (Ascii.eqb winner Board.NO_WINNER) then Some board
            else playLoop turns fuel ai human board (otherPlayer currentPlayer) input
        end
  end.

(** [Game(boardSize)] and [play]; [first] is the outcome of [rand() % 2]. *)
Definition play (turns fuel : nat) (boardSize : Z) (first : Player)
    (input : list Z) : option Board.t :=
  match Board.create boardSize with
  | None => None
  | Some board =>
      playLoop turns fuel (gameEngine boardSize) "O"%char board first input
  end.




(** ** What the properties are stated with *)

(** The boards the constructor and [set] on a legal index produce. *)
Definition wfBoard (b : Board.t) : Prop :=
  3 <= Board.size b <= 6 /\
  length (Board.cells b) = Z.to_nat (Board.size b * Board.size b) /\
  Board.winLines b = Board.generateWinLines (Board.size b).

(** Every cell is EMPTY or one of the two symbols of the engine. *)
Definition cellsOver (e : AIEngine) (b : Board.t) : Prop :=
  Forall (fun c => c = Board.EMPTY \/ c = aiSymbol e \/ c = humanSymbol e)
         (Board.cells b).

(** Every cell of [line] holds [s]. *)
Definition uniform (b : Board.t) (s : ascii) (line : list Z) : Prop :=
  Forall (fun idx => Board.get b idx = s) line.

Definition uniformb (b : Board.t) (s : ascii) (line : list Z) : bool :=
  forallb (fun idx => Ascii.eqb (Board.get b idx) s) line.

(** Some win line is uniformly one non-EMPTY symbol. *)
Definition someLineWon (b : Board.t) : Prop :=
  exists line s, line ∈ Board.winLines b /\ s <> Board.EMPTY /\ uniform b s line.

(** The shape of the win lines of a board of size [n], as a test. *)
Definition linesShape (n : Z) : bool :=
  (Z.of_nat (length (Board.generateWinLines n)) =? 2 * n + 2) &&
  forallb (fun line =>
             (Z.of_nat (length line) =? n) &&
             forallb (fun idx => (0 <=? idx) && (idx <? n * n)) line)
          (Board.generateWinLines n).

(** The number of win lines on which [index] lies. *)
Definition lineCount (wl : list (list Z)) (index : Z) : Z :=
  Z.of_nat (length (List.filter (fun line => existsb (Z.eqb index) line) wl)).

(** The lines [generateWinLines] is documented to build. *)
Definition rowLine (n r : Z) : list Z := (fun c => r * n + c) <$> seqZ 0 n.
Definition colLine (n c : Z) : list Z := (fun r => r * n + c) <$> seqZ 0 n.
Definition diagLine (n : Z) : list Z := (fun i => i * n + i) <$> seqZ 0 n.
Definition antiDiagLine (n : Z) : list Z := (fun i => i * n + (n - 1 - i)) <$> seqZ 0 n.

(** The evaluator as the design document words it: per line, the number of
    cells holding each symbol, then the tier table. *)
Definition countSymbol (b : Board.t) (s : ascii) (line : list Z) : Z :=
  Z.of_nat (length (List.filter (fun idx => Ascii.eqb (Board.get b idx) s) line)).

Definition lineContribution (n myCount oppCount : Z) : Z :=
  if (0 <? myCount) && (0 <? oppCount) then 0
  else if 0 <? myCount then
    if myCount =? n then 1000000
    else if myCount =? n - 1 then 50000
    else if myCount =? n - 2 then 1000
    else if 2 <=? myCount then 10
    else 0
  else if 0 <? oppCount then
    if oppCount =? n then -1000000
    else if oppCount =? n - 1 then -55000
    else if oppCount =? n - 2 then -2000
    else if 2 <=? oppCount then -20
    else 0
  else 0.

Definition lineValue (e : AIEngine) (b : Board.t) (line : list Z) : Z :=
  lineContribution (Board.size b) (countSymbol b (aiSymbol e) line)
                   (countSymbol b (humanSymbol e) line).

Definition sumZ (l : list Z) : Z := foldr Z.add 0 l.

Definition evaluateSpec (e : AIEngine) (b : Board.t) : Z :=
  sumZ (lineValue e b <$> Board.winLines b).

(** The engine with the two symbols exchanged. *)
Definition swapSymbols (e : AIEngine) : AIEngine :=
  {| aiSymbol := humanSymbol e; humanSymbol := aiSymbol e; maxDepth := maxDepth e |}.

(** The tier of the other table with the opposite sign. *)
Definition mirrorTier (v : Z) : Z :=
  if v =? 1000000 then -1000000
  else if v =? 50000 then -55000
  else if v =? 1000 then -2000
  else if v =? 10 then -20
  else if v =? -1000000 then 1000000
  else if v =? -55000 then 50000
  else if v =? -2000 then 1000
  else if v =? -20 then 10
  else 0.

(** [minimax] without the [if (beta <= alpha) break;] of its two loops, and
    so without [alpha] and [beta]. *)
Fixpoint maxAll (e : AIEngine) (rec : Board.t -> bool -> search)
    (emptyCells : list Z) (board : Board.t) (maxEval : Z) : search :=
  match emptyCells with
  | [] => Some (maxEval, board)
  | i :: rest =>
      match rec (Board.set board i (aiSymbol e)) false with
      | None => None
      | Some (evalScore, board) =>
          let board := Board.set board i Board.EMPTY in
          maxAll e rec rest board (Z.max maxEval evalScore)
      end
  end.

Fixpoint minAll (e : AIEngine) (rec : Board.t -> bool -> search)
    (emptyCells : list Z) (board : Board.t) (minEval : Z) : search :=
  match emptyCells with
  | [] => Some (minEval, board)
  | i :: rest =>
      match rec (Board.set board i (humanSymbol e)) true with
      | None => None
      | Some (evalScore, board) =>
          let board := Board.set board i Board.EMPTY in
          minAll e rec rest board (Z.min minEval evalScore)
      end
  end.

Fixpoint minimaxNoCutoff (fuel : nat) (e : AIEngine) (board : Board.t)
    (depth : Z) (isMaximizing : bool) : search :=
  match fuel with
  | O => None
  | S fuel =>
      let winner := Board.checkWinner board in
      if Ascii.eqb winner (aiSymbol e) then Some (WIN_SCORE, board)
      else if Ascii.eqb winner (humanSymbol e) then Some (LOSS_SCORE, board)
      else if Ascii.eqb winner Board.DRAW then Some (0, board)
      else if depth =? 0 then Some (evaluateBoard e board, board)
      else
        let emptyCells := Board.getEmptyCells board in
        let rec := fun b m => minimaxNoCutoff fuel e b (Int32.sub depth 1) m in
        if isMaximizing
        then maxAll e rec emptyCells board Int32.INT_MIN
        else minAll e rec emptyCells board Int32.INT_MAX
  end.

(** [getBestMove] over the search without cutoff. *)
Fixpoint bestLoopNoCutoff (fuel : nat) (e : AIEngine) (emptyCells : list Z)
    (board : Board.t) (bestScore bestMove : Z) : search :=
  match emptyCells with
  | [] => Some (bestMove, board)
  | i :: rest =>
      match minimaxNoCutoff fuel e (Board.set board i (aiSymbol e)) (maxDepth e) false with
      | None => None
      | Some (score, board) =>
          let board := Board.set board i Board.EMPTY in
          if bestScore <? score
          then bestLoopNoCutoff fuel e rest board score i
          else bestLoopNoCutoff fuel e rest board bestScore bestMove
      end
  end.

Definition getBestMoveNoCutoff (fuel : nat) (e : AIEngine) (board : Board.t) : search :=
  bestLoopNoCutoff fuel e (Board.getEmptyCells board) board Int32.INT_MIN (-1).

(** A recursion depth within which the search returns: the depth budget
    when it is not negative, else the number of empty cells, which every
    placement of a symbol other than EMPTY lowers. *)
Definition returnsWithin (fuel : nat) (e : AIEngine) (b : Board.t) (depth : Z) : Prop :=
  (0 <= depth <= Int32.INT_MAX /\ depth < Z.of_nat fuel) \/
  (aiSymbol e <> Board.EMPTY /\ humanSymbol e <> Board.EMPTY /\
   (length (Board.getEmptyCells b) < fuel)%nat).

(** The score of the candidate move [i]: the value [getBestMove] gets from
    [minimax] after placing the engine's symbol on [i]. *)
Definition candidateScore (fuel : nat) (e : AIEngine) (b : Board.t) (i : Z) : option Z :=
  fst <$> minimax fuel e (Board.set b i (aiSymbol e)) (maxDepth e)
                  Int32.INT_MIN Int32.INT_MAX false.

(** The outcome the engine accepts: its own win or a draw. *)
Definition engineDoesNotLose (ai : AIEngine) (b : Board.t) : bool :=
  Ascii.eqb (Board.checkWinner b) (aiSymbol ai) ||
  Ascii.eqb (Board.checkWinner b) Board.DRAW.

(** Every game from [board] on, whatever the human answers, ends on a board
    the engine does not lose; [turns] bounds the moves looked at. *)
Fixpoint allGamesSafe (turns fuel : nat) (ai : AIEngine) (human : ascii)
    (board : Board.t) (currentPlayer : Player) : bool :=
  match turns with
  | O => false
  | S turns =>
      let continue := fun board next =>
        if negb (Ascii.eqb (Board.checkWinner board) Board.NO_WINNER)
        then engineDoesNotLose ai board
        else allGamesSafe turns fuel ai human board next in
      if Board.isFull board then engineDoesNotLose ai board
      else
        match currentPlayer with
        | AI =>
            match getBestMove fuel ai board with
            | None => false
            | Some (move, board) =>
                continue (Board.set board move (aiSymbol ai)) Human
            end
        | Human =>
            forallb (fun move =>
                       if Board.isEmpty board move
                       then continue (Board.set board move human) AI
                       else true)
                    (seqZ 0 (Z.of_nat (length (Board.cells board))))
        end
  end.

(** A board of size [n] with the cells [cs]. *)
Definition boardOf (n : Z) (cs : list ascii) : Board.t :=
  {| Board.size := n; Board.cells := cs;
     Board.winLines := Board.generateWinLines n |}.

(** The call one ply down gives its board back. *)
Definition restores (rec : Board.t -> Z -> Z -> bool -> search) : Prop :=
  forall b alpha beta m v b', rec b alpha beta m = Some (v, b') -> b' = b.

(** Whatever [rec] returns, [rec'] returns too. *)
Definition extends (rec rec' : Board.t -> Z -> Z -> bool -> search) : Prop :=
  forall b alpha beta m r, rec b alpha beta m = Some r -> rec' b alpha beta m = Some r.

(** No cell holds one of the two markers of [checkWinner]. *)
Definition noMarkerCells (b : Board.t) : Prop :=
  Forall (fun c => c <> Board.DRAW /\ c <> Board.NO_WINNER) (Board.cells b).

(** No symbol has taken the whole of [line]. *)
Definition notWon (b : Board.t) (line : list Z) : Prop :=
  forall s, s <> Board.EMPTY -> ~ uniform b s line.

(** The first win line, in the order of generation, that one symbol has
    taken is taken by [s]. *)
Definition firstLineWon (b : Board.t) (lines : list (list Z)) (s : ascii) : Prop :=
  exists pre line post,
    lines = pre ++ line :: post /\ s <> Board.EMPTY /\ uniform b s line /\
    Forall (notWon b) pre.

(** The call one ply down of the search without cutoff gives its board back. *)
Definition restoresNoCutoff (rec : Board.t -> bool -> search) : Prop :=
  forall b m v b', rec b m = Some (v, b') -> b' = b.

(** What a search in the window from [alpha] to [beta] that returns [w]
    tells about the value [v] of the search without cutoff: it is [v]
    inside the window, and on the same side as [v] outside. *)
Definition agrees (alpha beta v w : Z) : Prop :=
  (v <= alpha -> w <= alpha) /\ (alpha < v < beta -> w = v) /\ (beta <= v -> beta <= w).

(** [r] is [p] with cutoffs: wherever [p] returns, [r] returns in every
    window a value that agrees with the one of [p]. *)
Definition prunes (p : Board.t -> bool -> search)
    (r : Board.t -> Z -> Z -> bool -> search) : Prop :=
  forall b m v alpha beta,
    p b m = Some (v, b) ->
    Int32.INT_MIN <= alpha -> alpha < beta -> beta <= Int32.INT_MAX ->
    Int32.in_range v /\
    exists w, r b alpha beta m = Some (w, b) /\ Int32.in_range w /\ agrees alpha beta v w.

(** Closes [cellsOver] on a board given cell by cell. *)
Ltac solve_cellsOver :=
  unfold cellsOver; simpl;
  repeat (apply List.Forall_cons;
          [first [by left | by (right; left) | by (right; right)]|]);
  apply List.Forall_nil.

(** [move] names an EMPTY cell of the board. *)
Definition legalMove (b : Board.t) (move : Z) : Prop :=
  0 <= move < Board.size b * Board.size b /\ Board.isEmpty b move = true.

(** * Properties *)

(** ** Machine integers *)

Lemma wrap_in_range (z : Z) : Int32.in_range z -> Int32.wrap z = z.
Proof.
  unfold Int32.in_range, Int32.wrap, Int32.INT_MIN, Int32.INT_MAX. intros Hz.
  rewrite Z.mod_small; lia.
Qed.

(** ** Board: cells, empty cells, set *)

Lemma eqb_EMPTY_NO_WINNER : Ascii.eqb Board.NO_WINNER Board.EMPTY = false.
Proof. reflexivity. Qed.

Lemma get_EMPTY_lookup (b : Board.t) (i : Z) :
  Board.get b i = Board.EMPTY <->
  0 <= i /\ Board.cells b !! Z.to_nat i = Some Board.EMPTY.
Proof.
  unfold Board.get. destruct (Z.ltb_spec i 0) as [Hi|Hi].
  - split; [discriminate | lia].
  - destruct (Board.cells b !! Z.to_nat i) as [c|]; simpl.
    + split; [intros ->; auto | intros [_ [= ->]]; reflexivity].
    + split; [discriminate | intros [_ [=]]].
Qed.

Lemma fold_left_snoc_filter {A : Type} (p : A -> bool) (l acc : list A) :
  fold_left (fun acc i => if p i then acc ++ [i] else acc) l acc
  = acc ++ List.filter p l.
Proof.
  revert acc. induction l as [|x l IH]; intros acc; simpl.
  - by rewrite app_nil_r.
  - rewrite IH. destruct (p x); [by rewrite <- app_assoc | done].
Qed.

Lemma getEmptyCells_filter (b : Board.t) :
  Board.getEmptyCells b
  = List.filter (fun i => Ascii.eqb (Board.get b i) Board.EMPTY)
                (seqZ 0 (Z.of_nat (length (Board.cells b)))).
Proof. unfold Board.getEmptyCells. by rewrite fold_left_snoc_filter. Qed.

Lemma elem_of_getEmptyCells (b : Board.t) (i : Z) :
  i ∈ Board.getEmptyCells b <->
  0 <= i /\ Board.cells b !! Z.to_nat i = Some Board.EMPTY.
Proof.
  rewrite getEmptyCells_filter, list_elem_of_In, filter_In.
  rewrite <- list_elem_of_In, elem_of_seqZ, Ascii.eqb_eq, get_EMPTY_lookup.
  split; [tauto|]. intros [Hi Hl]. split; [|done].
  apply lookup_lt_Some in Hl. lia.
Qed.

Lemma set_restore (b : Board.t) (i : Z) (symbol : ascii) :
  0 <= i -> Board.cells b !! Z.to_nat i = Some Board.EMPTY ->
  Board.set (Board.set b i symbol) i Board.EMPTY = b.
Proof.
  intros Hi Hl. unfold Board.set.
  destruct (Z.ltb_spec i 0); [lia|]. destruct b as [n cs wl]; simpl in *.
  f_equal. rewrite list_insert_insert_eq. by apply list_insert_id.
Qed.

(** ** The searches give the board back as they found it *)

(** One turn of the maximizing loop on an empty cell, once the call one ply
    down is known to give its board back. *)
Lemma maxLoop_cons e rec i rest b maxEval alpha beta v :
  i ∈ Board.getEmptyCells b ->
  rec (Board.set b i (aiSymbol e)) alpha beta false
    = Some (v, Board.set b i (aiSymbol e)) ->
  maxLoop e rec (i :: rest) b maxEval alpha beta
  = if beta <=? Z.max alpha v then Some (Z.max maxEval v, b)
    else maxLoop e rec rest b (Z.max maxEval v) (Z.max alpha v) beta.
Proof.
  intros [Hi Hl]%elem_of_getEmptyCells Hrec. simpl. rewrite Hrec.
  by rewrite set_restore.
Qed.

Lemma minLoop_cons e rec i rest b minEval alpha beta v :
  i ∈ Board.getEmptyCells b ->
  rec (Board.set b i (humanSymbol e)) alpha beta true
    = Some (v, Board.set b i (humanSymbol e)) ->
  minLoop e rec (i :: rest) b minEval alpha beta
  = if Z.min beta v <=? alpha then Some (Z.min minEval v, b)
    else minLoop e rec rest b (Z.min minEval v) alpha (Z.min beta v).
Proof.
  intros [Hi Hl]%elem_of_getEmptyCells Hrec. simpl. rewrite Hrec.
  by rewrite set_restore.
Qed.

Lemma maxLoop_restores e rec emptyCells b maxEval alpha beta v b' :
  restores rec -> emptyCells ⊆ Board.getEmptyCells b ->
  maxLoop e rec emptyCells b maxEval alpha beta = Some (v, b') -> b' = b.
Proof.
  intros Hrec. revert maxEval alpha.
  induction emptyCells as [|i rest IH]; intros maxEval alpha Hsub Hrun.
  - simpl in Hrun. congruence.
  - destruct (rec (Board.set b i (aiSymbol e)) alpha beta false)
      as [[w bw]|] eqn:Hcall; [|simpl in Hrun; by rewrite Hcall in Hrun].
    pose proof (Hrec _ _ _ _ _ _ Hcall) as ->.
    rewrite (maxLoop_cons _ _ _ _ _ _ _ _ w) in Hrun; [|set_solver|done].
    destruct (beta <=? Z.max alpha w); [congruence|].
    eapply IH; [set_solver|done].
Qed.

Lemma minLoop_restores e rec emptyCells b minEval alpha beta v b' :
  restores rec -> emptyCells ⊆ Board.getEmptyCells b ->
  minLoop e rec emptyCells b minEval alpha beta = Some (v, b') -> b' = b.
Proof.
  intros Hrec. revert minEval beta.
  induction emptyCells as [|i rest IH]; intros minEval beta Hsub Hrun.
  - simpl in Hrun. congruence.
  - destruct (rec (Board.set b i (humanSymbol e)) alpha beta true)
      as [[w bw]|] eqn:Hcall; [|simpl in Hrun; by rewrite Hcall in Hrun].
    pose proof (Hrec _ _ _ _ _ _ Hcall) as ->.
    rewrite (minLoop_cons _ _ _ _ _ _ _ _ w) in Hrun; [|set_solver|done].
    destruct (Z.min beta w <=? alpha); [congruence|].
    eapply IH; [set_solver|done].
Qed.

(** Unfolding one level of [minimax]. *)
Lemma minimax_S fuel e board depth alpha beta isMaximizing :
  minimax (S fuel) e board depth alpha beta isMaximizing =
  let winner := Board.checkWinner board in
  if Ascii.eqb winner (aiSymbol e) then Some (WIN_SCORE, board)
  else if Ascii.eqb winner (humanSymbol e) then Some (LOSS_SCORE, board)
  else if Ascii.eqb winner Board.DRAW then Some (0, board)
  else if depth =? 0 then Some (evaluateBoard e board, board)
  else
    let rec := fun b a be m => minimax fuel e b (Int32.sub depth 1) a be m in
    if isMaximizing
    then maxLoop e rec (Board.getEmptyCells board) board Int32.INT_MIN alpha beta
    else minLoop e rec (Board.getEmptyCells board) board Int32.INT_MAX alpha beta.
Proof. reflexivity. Qed.

Lemma minimax_restores fuel e depth :
  restores (fun b a be m => minimax fuel e b depth a be m).
Proof.
  revert depth. induction fuel as [|fuel IH]; intros depth b alpha beta m v b'.
  - discriminate.
  - rewrite minimax_S. cbv zeta.
    repeat (case_match; [congruence|]).
    destruct m.
    + apply maxLoop_restores; [apply IH|done].
    + apply minLoop_restores; [apply IH|done].
Qed.

Lemma bestLoop_cons fuel e i rest b bestScore bestMove v :
  i ∈ Board.getEmptyCells b ->
  minimax fuel e (Board.set b i (aiSymbol e)) (maxDepth e)
          Int32.INT_MIN Int32.INT_MAX false
    = Some (v, Board.set b i (aiSymbol e)) ->
  bestLoop fuel e (i :: rest) b bestScore bestMove
  = if bestScore <? v then bestLoop fuel e rest b v i
    else bestLoop fuel e rest b bestScore bestMove.
Proof.
  intros [Hi Hl]%elem_of_getEmptyCells Hrec. simpl. rewrite Hrec.
  by rewrite set_restore.
Qed.

Lemma bestLoop_restores fuel e emptyCells b bestScore bestMove mv b' :
  emptyCells ⊆ Board.getEmptyCells b ->
  bestLoop fuel e emptyCells b bestScore bestMove = Some (mv, b') -> b' = b.
Proof.
  revert bestScore bestMove.
  induction emptyCells as [|i rest IH]; intros bestScore bestMove Hsub Hrun.
  - simpl in Hrun. congruence.
  - destruct (minimax fuel e (Board.set b i (aiSymbol e)) (maxDepth e)
                Int32.INT_MIN Int32.INT_MAX false) as [[w bw]|] eqn:Hcall;
      [|simpl in Hrun; by rewrite Hcall in Hrun].
    pose proof (minimax_restores _ _ _ _ _ _ _ _ _ Hcall) as ->.
    rewrite (bestLoop_cons _ _ _ _ _ _ _ w) in Hrun; [|set_solver|done].
    destruct (bestScore <? w); (eapply IH; [set_solver|done]).
Qed.

(** C6. When [minimax] or [getBestMove] returns, the board it leaves is the
    board it was given: every simulated placement has been written back to
    EMPTY, also on the paths the cutoff ends early. And writing a symbol to
    an empty index, then EMPTY to the same index, gives the same board. *)
Theorem search_leaves_board_unchanged
    (fuel : nat) (e : AIEngine) (b : Board.t) (depth alpha beta : Z)
    (isMaximizing : bool) (v mv : Z) (b1 b2 : Board.t) (i : Z) (symbol : ascii) :
  (minimax fuel e b depth alpha beta isMaximizing = Some (v, b1) -> b1 = b) /\
  (getBestMove fuel e b = Some (mv, b2) -> b2 = b) /\
  (Board.isEmpty b i = true ->
   Board.set (Board.set b i symbol) i Board.EMPTY = b).
Proof.
  split; [|split].
  - apply (minimax_restores fuel e depth).
  - apply bestLoop_restores. done.
  - unfold Board.isEmpty. rewrite Ascii.eqb_eq, get_EMPTY_lookup.
    intros [Hi Hl]. by apply set_restore.
Qed.

Lemma search_leaves_board_unchanged_witness :
  (exists v,
     minimax 101 (gameEngine 3)
       (boardOf 3 ["X"; "O"; "X"; "O"; "O"; " "; " "; " "; " "]%char) 100
       Int32.INT_MIN Int32.INT_MAX true
     = Some (v, boardOf 3 ["X"; "O"; "X"; "O"; "O"; " "; " "; " "; " "]%char)) /\
  Board.isEmpty (boardOf 3 ["X"; "O"; "X"; "O"; "O"; " "; " "; " "; " "]%char) 5
  = true /\
  Board.set
    (Board.set (boardOf 3 ["X"; "O"; "X"; "O"; "O"; " "; " "; " "; " "]%char)
               5 "X"%char) 5 Board.EMPTY
  = boardOf 3 ["X"; "O"; "X"; "O"; "O"; " "; " "; " "; " "]%char.
Proof.
  destruct (minimax 101 (gameEngine 3)
              (boardOf 3 ["X"; "O"; "X"; "O"; "O"; " "; " "; " "; " "]%char) 100
              Int32.INT_MIN Int32.INT_MAX true) as [[v b1]|] eqn:Hrun;
    [|vm_compute in Hrun; discriminate].
  destruct (search_leaves_board_unchanged 101 (gameEngine 3)
              (boardOf 3 ["X"; "O"; "X"; "O"; "O"; " "; " "; " "; " "]%char) 100
              Int32.INT_MIN Int32.INT_MAX true v 0 b1
              (boardOf 3 ["X"; "O"; "X"; "O"; "O"; " "; " "; " "; " "]%char)
              5 "X"%char) as (Hmin & _ & Hset).
  pose proof (Hmin Hrun) as ->. split; [by exists v|]. split; [reflexivity|].
  apply Hset. reflexivity.
Defined.

(** ** More recursion depth does not change a result *)

Lemma maxLoop_extends e rec rec' emptyCells b maxEval alpha beta r :
  extends rec rec' ->
  maxLoop e rec emptyCells b maxEval alpha beta = Some r ->
  maxLoop e rec' emptyCells b maxEval alpha beta = Some r.
Proof.
  intros Hext. revert b maxEval alpha.
  induction emptyCells as [|i rest IH]; intros b maxEval alpha; simpl; [done|].
  destruct (rec _ alpha beta false) as [[w bw]|] eqn:Hcall; [|done].
  rewrite (Hext _ _ _ _ _ Hcall). case_match; [done | apply IH].
Qed.

Lemma minLoop_extends e rec rec' emptyCells b minEval alpha beta r :
  extends rec rec' ->
  minLoop e rec emptyCells b minEval alpha beta = Some r ->
  minLoop e rec' emptyCells b minEval alpha beta = Some r.
Proof.
  intros Hext. revert b minEval beta.
  induction emptyCells as [|i rest IH]; intros b minEval beta; simpl; [done|].
  destruct (rec _ alpha beta true) as [[w bw]|] eqn:Hcall; [|done].
  rewrite (Hext _ _ _ _ _ Hcall). case_match; [done | apply IH].
Qed.

Lemma minimax_fuel_S fuel e depth :
  extends (fun b a be m => minimax fuel e b depth a be m)
          (fun b a be m => minimax (S fuel) e b depth a be m).
Proof.
  revert depth. induction fuel as [|fuel IH]; intros depth b alpha beta m r.
  - discriminate.
  - rewrite (minimax_S (S fuel)), minimax_S. cbv zeta.
    repeat (case_match; [done|]). destruct m.
    + apply maxLoop_extends, IH.
    + apply minLoop_extends, IH.
Qed.

Lemma minimax_fuel_le fuel fuel' e b depth alpha beta m r :
  (fuel <= fuel')%nat ->
  minimax fuel e b depth alpha beta m = Some r ->
  minimax fuel' e b depth alpha beta m = Some r.
Proof.
  induction 1 as [|fuel' _ IH]; [done|].
  intros H. by apply minimax_fuel_S, IH.
Qed.

Lemma bestLoop_fuel_le fuel fuel' e emptyCells b bestScore bestMove r :
  (fuel <= fuel')%nat ->
  bestLoop fuel e emptyCells b bestScore bestMove = Some r ->
  bestLoop fuel' e emptyCells b bestScore bestMove = Some r.
Proof.
  intros Hle. revert b bestScore bestMove.
  induction emptyCells as [|i rest IH]; intros b bestScore bestMove; simpl; [done|].
  destruct (minimax fuel _ _ _ _ _ _) as [[w bw]|] eqn:Hcall; [|done].
  rewrite (minimax_fuel_le _ _ _ _ _ _ _ _ _ Hle Hcall).
  case_match; apply IH.
Qed.

Lemma getBestMove_fuel_le fuel fuel' e b r :
  (fuel <= fuel')%nat ->
  getBestMove fuel e b = Some r -> getBestMove fuel' e b = Some r.
Proof. apply bestLoop_fuel_le. Qed.

(** ** The engine does not lose on the 3x3 board *)

Lemma humanGetMove_legal board input move input' :
  humanGetMove board input = Some (move, input') ->
  move ∈ seqZ 0 (Z.of_nat (length (Board.cells board))) /\
  Board.isEmpty board move = true.
Proof.
  induction input as [|m input IH]; simpl; [done|].
  destruct ((m <? 0) || _); [done|].
  destruct (Board.isEmpty board m) eqn:Hm; simpl; [|done].
  intros [= <- <-]. split; [|done].
  unfold Board.isEmpty in Hm. apply Ascii.eqb_eq, get_EMPTY_lookup in Hm.
  destruct Hm as [Hm Hl]. apply lookup_lt_Some in Hl.
  apply elem_of_seqZ. lia.
Qed.

Lemma getBestMove_fuel_agree fuel fuel' e b r r' :
  getBestMove fuel e b = Some r -> getBestMove fuel' e b = Some r' -> r = r'.
Proof.
  intros H H'. destruct (Nat.le_ge_cases fuel fuel') as [Hle|Hle].
  - apply (getBestMove_fuel_le _ _ _ _ _ Hle) in H. congruence.
  - apply (getBestMove_fuel_le _ _ _ _ _ Hle) in H'. congruence.
Qed.

Lemma allGamesSafe_sound n fuel0 ai human :
  forall board p, allGamesSafe n fuel0 ai human board p = true ->
  forall turns fuel input final,
    playLoop turns fuel ai human board p input = Some final ->
    engineDoesNotLose ai final = true.
Proof.
  induction n as [|n IH]; intros board p Hsafe turns fuel input final Hplay;
    [discriminate|].
  destruct turns as [|turns]; [discriminate|]. simpl in Hsafe, Hplay.
  destruct (Board.isFull board); [congruence|].
  destruct p.
  - destruct (humanGetMove board input) as [[move input']|] eqn:Hmove; [|done].
    apply humanGetMove_legal in Hmove as [Hin Hempty].
    rewrite forallb_forall in Hsafe.
    apply list_elem_of_In, Hsafe in Hin. rewrite Hempty in Hin.
    destruct (negb _); [congruence|]. by eapply IH.
  - destruct (getBestMove fuel0 ai board) as [[move0 board0]|] eqn:H0; [|done].
    destruct (getBestMove fuel ai board) as [[move board']|] eqn:H1; [|done].
    pose proof (getBestMove_fuel_agree _ _ _ _ _ _ H0 H1) as [= -> ->].
    destruct (negb _); [congruence|]. by eapply IH.
Qed.

Lemma allGamesSafe_board3 (first : Player) :
  allGamesSafe 10 101 (gameEngine 3) "O"%char board3 first = true.
Proof. destruct first; vm_compute; reflexivity. Qed.

(** C1. On the 3x3 board, with the depth budget [getMaxDepth] gives it, a
    game from the empty board in which the engine plays what [getBestMove]
    returns ends on a board that is not a win for the opponent, whoever
    starts and whatever legal moves the opponent makes: the engine wins or
    draws. *)
Theorem engine_never_loses_3x3
    (turns fuel : nat) (first : Player) (input : list Z) (final : Board.t) :
  play turns fuel 3 first input = Some final ->
  Board.checkWinner final <> "O"%char /\
  (Board.checkWinner final = "X"%char \/ Board.checkWinner final = Board.DRAW).
Proof.
  unfold play. change (Board.create 3) with (Some board3). intros Hplay.
  apply (allGamesSafe_sound _ _ _ _ _ _ (allGamesSafe_board3 first)) in Hplay.
  unfold engineDoesNotLose in Hplay.
  apply orb_true_iff in Hplay as [H|H]; apply Ascii.eqb_eq in H; rewrite H;
    split; auto; discriminate.
Qed.

Lemma engine_never_loses_3x3_witness :
  play 10 101 3 Human [4; 4; 0; 9; 2; 6; 3; 5; 7; 8; 1]
  = Some {| Board.size := 3;
            Board.cells := ["X"; "X"; "O"; "O"; "O"; "X"; "X"; "O"; "O"]%char;
            Board.winLines := Board.generateWinLines 3 |} /\
  Board.checkWinner
    {| Board.size := 3;
       Board.cells := ["X"; "X"; "O"; "O"; "O"; "X"; "X"; "O"; "O"]%char;
       Board.winLines := Board.generateWinLines 3 |} <> "O"%char.
Proof.
  split; [vm_compute; reflexivity|].
  apply (engine_never_loses_3x3 10 101 Human [4; 4; 0; 9; 2; 6; 3; 5; 7; 8; 1]).
  vm_compute; reflexivity.
Defined.

(** ** Terminal positions *)

(** C5. Whatever the depth argument, [minimax] on a board that
    [checkWinner] reports as won by the engine's symbol returns 1000000, as
    won by the opponent's symbol -1000000, and as drawn 0; the evaluator is
    not consulted. The symbols of the engine are distinct and neither is the
    draw marker. *)
Theorem minimax_terminal_first
    (fuel : nat) (e : AIEngine) (b : Board.t) (depth alpha beta : Z)
    (isMaximizing : bool) :
  aiSymbol e <> humanSymbol e ->
  aiSymbol e <> Board.DRAW -> humanSymbol e <> Board.DRAW ->
  (Board.checkWinner b = aiSymbol e ->
   minimax (S fuel) e b depth alpha beta isMaximizing = Some (1000000, b)) /\
  (Board.checkWinner b = humanSymbol e ->
   minimax (S fuel) e b depth alpha beta isMaximizing = Some (-1000000, b)) /\
  (Board.checkWinner b = Board.DRAW ->
   minimax (S fuel) e b depth alpha beta isMaximizing = Some (0, b)).
Proof.
  intros Hne Ha Hh. rewrite minimax_S. cbv zeta.
  split; [|split]; intros ->.
  - by rewrite Ascii.eqb_refl.
  - rewrite (proj2 (Ascii.eqb_neq _ _)) by congruence.
    by rewrite Ascii.eqb_refl.
  - rewrite !(proj2 (Ascii.eqb_neq Board.DRAW _)) by congruence.
    by rewrite Ascii.eqb_refl.
Qed.

Lemma minimax_terminal_first_witness :
  minimax 1 (gameEngine 3)
          (boardOf 3 ["X"; "X"; "X"; "O"; "O"; " "; " "; " "; " "]%char)
          100 Int32.INT_MIN Int32.INT_MAX false
  = Some (1000000, boardOf 3 ["X"; "X"; "X"; "O"; "O"; " "; " "; " "; " "]%char) /\
  minimax 1 (gameEngine 3)
          (boardOf 3 ["X"; "X"; " "; "O"; "O"; "O"; "X"; " "; " "]%char)
          100 Int32.INT_MIN Int32.INT_MAX true
  = Some (-1000000, boardOf 3 ["X"; "X"; " "; "O"; "O"; "O"; "X"; " "; " "]%char) /\
  minimax 1 (gameEngine 3)
          (boardOf 3 ["X"; "X"; "O"; "O"; "O"; "X"; "X"; "O"; "O"]%char)
          100 Int32.INT_MIN Int32.INT_MAX true
  = Some (0, boardOf 3 ["X"; "X"; "O"; "O"; "O"; "X"; "X"; "O"; "O"]%char).
Proof.
  split; [|split].
  - apply (minimax_terminal_first 0 (gameEngine 3)); [done..|reflexivity].
  - apply (minimax_terminal_first 0 (gameEngine 3)); [done..|reflexivity].
  - apply (minimax_terminal_first 0 (gameEngine 3)); [done..|reflexivity].
Defined.

(** ** The win lines *)

Lemma size_cases (n : Z) : 3 <= n <= 6 -> n = 3 \/ n = 4 \/ n = 5 \/ n = 6.
Proof. lia. Qed.

Lemma linesShape_sizes (n : Z) : 3 <= n <= 6 -> linesShape n = true.
Proof.
  intros Hn. destruct (size_cases n Hn) as [-> | [-> | [-> | ->]]];
    vm_compute; reflexivity.
Qed.

Lemma create_Some (n : Z) :
  3 <= n <= 6 ->
  Board.create n = Some (boardOf n (replicate (Z.to_nat (n * n)) Board.EMPTY)).
Proof.
  intros Hn. unfold Board.create.
  destruct (Z.ltb_spec n 3); [lia|]. destruct (Z.ltb_spec 6 n); [lia|].
  simpl. unfold Int32.mul. rewrite wrap_in_range; [done|].
  unfold Int32.in_range, Int32.INT_MIN, Int32.INT_MAX. nia.
Qed.

(** C8, amended. For every size from 3 to 6 the board built by the
    constructor has 2*size+2 win lines: the rows, then the columns, then the
    main diagonal and the anti-diagonal; each line has size indices; and an
    index lies on its row, on its column and on each diagonal it belongs to,
    so on 2, 3 or 4 lines. *)
Theorem winLines_shape (n : Z) :
  3 <= n <= 6 ->
  exists b, Board.create n = Some b /\
    Board.winLines b
    = (rowLine n <$> seqZ 0 n) ++ (colLine n <$> seqZ 0 n)
      ++ [diagLine n; antiDiagLine n] /\
    Z.of_nat (length (Board.winLines b)) = 2 * n + 2 /\
    Forall (fun line => Z.of_nat (length line) = n) (Board.winLines b) /\
    forall i, 0 <= i < n * n ->
      lineCount (Board.winLines b) i
      = 2 + (if i / n =? i mod n then 1 else 0)
          + (if i / n + i mod n =? n - 1 then 1 else 0).
Proof.
  intros Hn. eexists. split; [by apply create_Some|]. simpl.
  split; [|split; [|split]].
  - destruct (size_cases n Hn) as [-> | [-> | [-> | ->]]]; vm_compute; reflexivity.
  - destruct (size_cases n Hn) as [-> | [-> | [-> | ->]]]; vm_compute; reflexivity.
  - apply Forall_forall. intros line Hline.
    pose proof (linesShape_sizes n Hn) as Hs. unfold linesShape in Hs.
    apply andb_true_iff in Hs as [_ Hs]. rewrite forallb_forall in Hs.
    apply list_elem_of_In, Hs, andb_true_iff in Hline as [Hlen _]. lia.
  - intros i Hi.
    assert (forallb (fun i => lineCount (Board.generateWinLines n) i
                              =? 2 + (if i / n =? i mod n then 1 else 0)
                                   + (if i / n + i mod n =? n - 1 then 1 else 0))
                    (seqZ 0 (n * n)) = true) as Hall
      by (destruct (size_cases n Hn) as [-> | [-> | [-> | ->]]];
          vm_compute; reflexivity).
    rewrite forallb_forall in Hall. apply Z.eqb_eq, Hall, list_elem_of_In.
    apply elem_of_seqZ. lia.
Qed.

Lemma winLines_shape_witness :
  exists b, Board.create 3 = Some b /\
    Board.winLines b
    = [[0; 1; 2]; [3; 4; 5]; [6; 7; 8]; [0; 3; 6]; [1; 4; 7]; [2; 5; 8];
       [0; 4; 8]; [2; 4; 6]] /\
    lineCount (Board.winLines b) 4 = 4 /\ lineCount (Board.winLines b) 0 = 3.
Proof.
  destruct (winLines_shape 3 ltac:(lia)) as (b & Hb & Hlines & _ & _ & Hcount).
  exists b. split; [done|]. split; [by rewrite Hlines|].
  split; [apply (Hcount 4); lia | apply (Hcount 0); lia].
Defined.

(** C8 as stated fails: on the 3x3 board index 1 lies on two lines only,
    its row and its column. *)
Lemma winLines_index_on_two_lines :
  Board.create 3 = Some board3 /\ lineCount (Board.winLines board3) 1 = 2 /\
  lineCount (Board.winLines board3) 1 <> 4.
Proof. split; [reflexivity|]. split; [reflexivity|]. vm_compute. discriminate. Qed.

(** ** Well-formed boards *)

Lemma wfBoard_lines (b : Board.t) :
  wfBoard b ->
  (length (Board.winLines b) <= 14)%nat /\
  Forall (fun line => line <> [] /\ Z.of_nat (length line) = Board.size b /\
                      Forall (fun idx => 0 <= idx < Z.of_nat (length (Board.cells b))) line)
         (Board.winLines b).
Proof.
  intros (Hn & Hlen & ->).
  pose proof (linesShape_sizes _ Hn) as Hs. unfold linesShape in Hs.
  apply andb_true_iff in Hs as [Hcount Hs]. split; [lia|].
  rewrite forallb_forall in Hs. apply Forall_forall. intros line Hline.
  apply list_elem_of_In, Hs, andb_true_iff in Hline as [Hl Hidx].
  apply Z.eqb_eq in Hl. split; [intros ->; simpl in Hl; lia|]. split; [done|].
  rewrite forallb_forall in Hidx. apply Forall_forall. intros idx Hin.
  apply list_elem_of_In, Hidx in Hin. rewrite Hlen. lia.
Qed.

Lemma wfBoard_set (b : Board.t) (i : Z) (s : ascii) :
  wfBoard b -> wfBoard (Board.set b i s).
Proof.
  unfold wfBoard, Board.set. destruct (i <? 0); [done|]. simpl.
  by rewrite length_insert.
Qed.

Lemma cellsOver_set (e : AIEngine) (b : Board.t) (i : Z) (s : ascii) :
  cellsOver e b -> s = Board.EMPTY \/ s = aiSymbol e \/ s = humanSymbol e ->
  cellsOver e (Board.set b i s).
Proof.
  unfold cellsOver, Board.set. intros Hb Hs. destruct (i <? 0); [done|]. simpl.
  by apply Forall_insert.
Qed.

Lemma wfBoard_boardOf (n : Z) (cs : list ascii) :
  3 <= n <= 6 -> length cs = Z.to_nat (n * n) -> wfBoard (boardOf n cs).
Proof. by intros Hn Hl. Qed.

Lemma get_in_range (b : Board.t) (idx : Z) :
  0 <= idx < Z.of_nat (length (Board.cells b)) ->
  Board.cells b !! Z.to_nat idx = Some (Board.get b idx).
Proof.
  intros Hi. unfold Board.get. destruct (Z.ltb_spec idx 0); [lia|].
  destruct (lookup_lt_is_Some_2 (Board.cells b) (Z.to_nat idx)) as [c Hc]; [lia|].
  by rewrite Hc.
Qed.

Lemma get_elem_of (b : Board.t) (idx : Z) :
  0 <= idx < Z.of_nat (length (Board.cells b)) ->
  Board.get b idx ∈ Board.cells b.
Proof. intros Hi. eapply list_elem_of_lookup_2, get_in_range, Hi. Qed.

(** ** checkWinner *)

Lemma uniformb_iff (b : Board.t) (s : ascii) (line : list Z) :
  uniformb b s line = true <-> uniform b s line.
Proof.
  unfold uniformb, uniform. rewrite forallb_forall, Forall_forall.
  split; intros H idx Hin.
  - by apply Ascii.eqb_eq, H, list_elem_of_In.
  - by apply Ascii.eqb_eq, H, list_elem_of_In.
Qed.

Lemma uniform_first (b : Board.t) (s : ascii) (line : list Z) :
  line <> [] -> uniform b s line -> Board.get b (hd 0 line) = s.
Proof. destruct line as [|i tl]; [done|]. intros _ H. by inversion H. Qed.

(** One turn of the loop of [checkWinner]. *)
Lemma checkLines_cons (b : Board.t) (line : list Z) (rest : list (list Z)) :
  line <> [] ->
  (exists s, s <> Board.EMPTY /\ uniform b s line /\
             Board.checkLines b (line :: rest) = Some s) \/
  (notWon b line /\ Board.checkLines b (line :: rest) = Board.checkLines b rest).
Proof.
  intros Hne. simpl.
  destruct (Ascii.eqb (Board.get b (hd 0 line)) Board.EMPTY) eqn:Hfirst.
  - right. split; [|done]. intros s Hs Hu.
    apply uniform_first in Hu; [|done]. apply Ascii.eqb_eq in Hfirst. congruence.
  - apply Ascii.eqb_neq in Hfirst.
    destruct (forallb _ line) eqn:Hall.
    + left. eexists. split; [done|]. split; [|done]. by apply uniformb_iff.
    + right. split; [|done]. intros s Hs Hu.
      pose proof (uniform_first _ _ _ Hne Hu) as <-.
      apply uniformb_iff in Hu. unfold uniformb in Hu. congruence.
Qed.

Lemma uniform_unique (b : Board.t) (s s' : ascii) (line : list Z) :
  line <> [] -> uniform b s line -> uniform b s' line -> s = s'.
Proof.
  intros Hne H H'. apply uniform_first in H, H'; [congruence|done..].
Qed.

Lemma checkLines_None (b : Board.t) (lines : list (list Z)) :
  Forall (fun line => line <> []) lines ->
  Board.checkLines b lines = None <-> Forall (notWon b) lines.
Proof.
  induction 1 as [|line rest Hne _ IH]; [done|].
  destruct (checkLines_cons b line rest Hne) as [(s & Hs & Hu & ->)|[Hnw ->]].
  - split; [done|]. intros Hall. inversion Hall as [|? ? Hline _]. by destruct (Hline s).
  - rewrite IH. split; [by constructor | by inversion 1].
Qed.

Lemma checkLines_Some (b : Board.t) (lines : list (list Z)) (s : ascii) :
  Forall (fun line => line <> []) lines ->
  Board.checkLines b lines = Some s <-> firstLineWon b lines s.
Proof.
  induction 1 as [|line rest Hne Hrest IH].
  - split; [done|]. intros (pre & l & post & Heq & _). by destruct pre.
  - destruct (checkLines_cons b line rest Hne) as [(s' & Hs & Hu & ->)|[Hnw ->]].
    + split.
      * intros [= ->]. by exists [], line, rest.
      * intros (pre & l & post & Heq & Hs0 & Hu0 & Hpre).
        destruct pre as [|l0 pre]; simplify_eq/=.
        -- f_equal. by eapply uniform_unique.
        -- inversion Hpre as [|? ? Hl0 _]. by destruct (Hl0 s').
    + rewrite IH. split.
      * intros (pre & l & post & -> & Hs0 & Hu0 & Hpre).
        exists (line :: pre), l, post. repeat split; [done..|by constructor].
      * intros (pre & l & post & Heq & Hs0 & Hu0 & Hpre).
        destruct pre as [|l0 pre]; simplify_eq/=.
        -- by destruct (Hnw s).
        -- exists pre, l, post. repeat split; [done..|by inversion Hpre].
Qed.

Lemma firstLineWon_someLineWon (b : Board.t) (s : ascii) :
  firstLineWon b (Board.winLines b) s -> someLineWon b.
Proof.
  intros (pre & line & post & Heq & Hs & Hu & _). exists line, s.
  split; [|done]. rewrite Heq. set_solver.
Qed.

Lemma checkLines_None_not_won (b : Board.t) :
  Forall (fun line => line <> []) (Board.winLines b) ->
  Board.checkLines b (Board.winLines b) = None <-> ~ someLineWon b.
Proof.
  intros Hne. split.
  - intros Hnone (line & s & Hin & Hs & Hu).
    apply checkLines_None in Hnone; [|done].
    rewrite Forall_forall in Hnone. by apply (Hnone line Hin s).
  - intros Hnot. destruct (Board.checkLines b (Board.winLines b)) as [s|] eqn:Hc;
      [|done].
    destruct Hnot. eapply firstLineWon_someLineWon. by apply checkLines_Some.
Qed.

Lemma wfBoard_lines_nonempty (b : Board.t) :
  wfBoard b -> Forall (fun line => line <> []) (Board.winLines b).
Proof.
  intros [_ Hl]%wfBoard_lines. eapply Forall_impl; [done|]. by intros line [? _].
Qed.

(** The symbol a line is uniformly taken by is the content of a cell. *)
Lemma uniform_elem_of (b : Board.t) (s : ascii) (line : list Z) :
  wfBoard b -> line ∈ Board.winLines b -> uniform b s line -> s ∈ Board.cells b.
Proof.
  intros [_ Hl]%wfBoard_lines Hin Hu. rewrite Forall_forall in Hl.
  destruct (Hl line Hin) as (Hne & _ & Hidx).
  rewrite <- (uniform_first b s line Hne Hu).
  destruct line as [|i tl]; [done|]. apply get_elem_of. by inversion Hidx.
Qed.

Lemma checkLines_Some_elem_of (b : Board.t) (s : ascii) :
  wfBoard b -> Board.checkLines b (Board.winLines b) = Some s ->
  s <> Board.EMPTY /\ s ∈ Board.cells b.
Proof.
  intros Hwf Hc. apply checkLines_Some in Hc; [|by apply wfBoard_lines_nonempty].
  destruct Hc as (pre & line & post & Heq & Hs & Hu & _). split; [done|].
  apply (uniform_elem_of b s line); [done| |done]. rewrite Heq. set_solver.
Qed.

(** C2, amended. On a board of a legal size whose cells hold no marker,
    [checkWinner] returns a non-EMPTY symbol [s] iff the first win line, in
    the order of generation, that is uniformly one non-EMPTY symbol is
    uniformly [s]; it returns the Draw marker iff the board is full and no
    win line is uniformly one non-EMPTY symbol; it returns the no-winner
    marker iff the board is not full and no win line is so; and when some
    line is won it returns neither marker. *)
Theorem checkWinner_cases (b : Board.t) :
  wfBoard b -> noMarkerCells b ->
  (forall s, s <> Board.EMPTY -> s <> Board.DRAW -> s <> Board.NO_WINNER ->
     Board.checkWinner b = s <-> firstLineWon b (Board.winLines b) s) /\
  (Board.checkWinner b = Board.DRAW <->
     Board.isFull b = true /\ ~ someLineWon b) /\
  (Board.checkWinner b = Board.NO_WINNER <->
     Board.isFull b = false /\ ~ someLineWon b) /\
  (someLineWon b ->
     Board.checkWinner b <> Board.DRAW /\ Board.checkWinner b <> Board.NO_WINNER).
Proof.
  intros Hwf Hcells.
  pose proof (wfBoard_lines_nonempty b Hwf) as Hne.
  pose proof (checkLines_None_not_won b Hne) as Hnone.
  assert (forall s, Board.checkLines b (Board.winLines b) = Some s ->
                    s <> Board.DRAW /\ s <> Board.NO_WINNER) as Hsym.
  { intros s [_ Hin]%checkLines_Some_elem_of; [|done].
    unfold noMarkerCells in Hcells. rewrite Forall_forall in Hcells. auto. }
  unfold Board.checkWinner.
  destruct (Board.checkLines b (Board.winLines b)) as [f|] eqn:Hc.
  - destruct (Hsym f eq_refl) as [HfD HfN].
    assert (someLineWon b) as Hwon
      by (eapply firstLineWon_someLineWon; by apply checkLines_Some).
    split; [|split; [|split]].
    + intros s _ _ _. rewrite <- checkLines_Some, Hc by done.
      split; congruence.
    + split; [done | tauto].
    + split; [done | tauto].
    + done.
  - assert (~ someLineWon b) as Hnot by (by apply Hnone).
    split; [|split; [|split]].
    + intros s _ HsD HsN. rewrite <- checkLines_Some, Hc by done.
      destruct (Board.isFull b); split; congruence.
    + destruct (Board.isFull b); split; [done|done|done|intros [? _]; done].
    + destruct (Board.isFull b); split; [done|intros [? _]; done|done|done].
    + done.
Qed.

Lemma checkWinner_cases_witness :
  Board.checkWinner
    (boardOf 3 ["X"; "X"; "X"; "O"; "O"; "O"; " "; " "; " "]%char) = "X"%char /\
  firstLineWon (boardOf 3 ["X"; "X"; "X"; "O"; "O"; "O"; " "; " "; " "]%char)
    (Board.winLines (boardOf 3 ["X"; "X"; "X"; "O"; "O"; "O"; " "; " "; " "]%char))
    "X"%char.
Proof.
  split; [reflexivity|].
  apply (checkWinner_cases
           (boardOf 3 ["X"; "X"; "X"; "O"; "O"; "O"; " "; " "; " "]%char)).
  - apply wfBoard_boardOf; [lia | reflexivity].
  - repeat constructor; discriminate.
  - discriminate.
  - discriminate.
  - discriminate.
  - reflexivity.
Defined.

(** C2 as stated fails on a board with two lines taken by different
    symbols: the second row is uniformly 'O', and 'X', the symbol of the
    first row, is returned. *)
Lemma checkWinner_second_line_not_returned :
  ~ (Board.checkWinner
       (boardOf 3 ["X"; "X"; "X"; "O"; "O"; "O"; " "; " "; " "]%char) = "O"%char
     <-> exists line,
           line ∈ Board.winLines
                    (boardOf 3 ["X"; "X"; "X"; "O"; "O"; "O"; " "; " "; " "]%char) /\
           uniform (boardOf 3 ["X"; "X"; "X"; "O"; "O"; "O"; " "; " "; " "]%char)
                   "O"%char line).
Proof.
  intros [_ H]. enough (Heq : "X"%char = "O"%char) by discriminate Heq.
  apply H. exists [3; 4; 5]. split.
  - change (Board.winLines _) with
      [[0; 1; 2]; [3; 4; 5]; [6; 7; 8]; [0; 3; 6]; [1; 4; 7]; [2; 5; 8];
       [0; 4; 8]; [2; 4; 6]]. set_solver.
  - repeat constructor.
Qed.

(** Why [checkWinner_cases] asks for cells without markers: a row of 'D'
    is returned like any other symbol, on a board that is not full. *)
Example checkWinner_marker_row :
  Board.checkWinner
    (boardOf 3 ["D"; "D"; "D"; "X"; "O"; " "; " "; " "; " "]%char) = Board.DRAW /\
  Board.isFull
    (boardOf 3 ["D"; "D"; "D"; "X"; "O"; " "; " "; " "; " "]%char) = false.
Proof. split; reflexivity. Qed.

(** ** The evaluator *)

Lemma wrap_range (z : Z) : Int32.in_range (Int32.wrap z).
Proof.
  unfold Int32.in_range, Int32.wrap, Int32.INT_MIN, Int32.INT_MAX.
  pose proof (Z.mod_pos_bound (z + 2147483648) 4294967296). lia.
Qed.

Lemma add_small (a b : Z) :
  -2147483648 <= a + b <= 2147483647 -> Int32.add a b = a + b.
Proof. intros H. apply wrap_in_range. exact H. Qed.

Lemma sub_small (a b : Z) :
  -2147483648 <= a - b <= 2147483647 -> Int32.sub a b = a - b.
Proof. intros H. apply wrap_in_range. exact H. Qed.

Lemma countSymbol_nil (b : Board.t) (s : ascii) : countSymbol b s [] = 0.
Proof. reflexivity. Qed.

Lemma countSymbol_cons (b : Board.t) (s : ascii) (idx : Z) (line : list Z) :
  countSymbol b s (idx :: line)
  = (if Ascii.eqb (Board.get b idx) s then 1 else 0) + countSymbol b s line.
Proof.
  unfold countSymbol. simpl. destruct (Ascii.eqb _ s); simpl; lia.
Qed.

Lemma countSymbol_bounds (b : Board.t) (s : ascii) (line : list Z) :
  0 <= countSymbol b s line <= Z.of_nat (length line).
Proof.
  induction line as [|idx line IH]; [done|].
  rewrite countSymbol_cons. simpl length. destruct (Ascii.eqb _ s); lia.
Qed.

Lemma countLine_from (e : AIEngine) (b : Board.t) (line : list Z) (cnt : Z * Z) :
  aiSymbol e <> humanSymbol e ->
  0 <= cnt.1 -> 0 <= cnt.2 ->
  cnt.1 + Z.of_nat (length line) <= 2147483647 ->
  cnt.2 + Z.of_nat (length line) <= 2147483647 ->
  fold_left (fun (cnt : Z * Z) idx =>
               let val := Board.get b idx in
               if Ascii.eqb val (aiSymbol e) then (Int32.add cnt.1 1, cnt.2)
               else if Ascii.eqb val (humanSymbol e) then (cnt.1, Int32.add cnt.2 1)
               else cnt)
            line cnt
  = (cnt.1 + countSymbol b (aiSymbol e) line,
     cnt.2 + countSymbol b (humanSymbol e) line).
Proof.
  intros Hne. revert cnt.
  induction line as [|idx line IH]; intros [my opp]; simpl; intros Hmy Hopp Hm Ho.
  - rewrite !countSymbol_nil. f_equal; lia.
  - rewrite !countSymbol_cons.
    destruct (Ascii.eqb_spec (Board.get b idx) (aiSymbol e)) as [Hai|Hai].
    + rewrite (proj2 (Ascii.eqb_neq _ (humanSymbol e))) by congruence.
      rewrite IH; simpl; rewrite ?add_small; try lia. f_equal; lia.
    + destruct (Ascii.eqb (Board.get b idx) (humanSymbol e)).
      * rewrite IH; simpl; rewrite ?add_small; try lia. f_equal; lia.
      * rewrite IH; simpl; try lia. f_equal; lia.
Qed.

Lemma countLine_spec (e : AIEngine) (b : Board.t) (line : list Z) :
  aiSymbol e <> humanSymbol e -> Z.of_nat (length line) <= 2147483647 ->
  countLine e b line
  = (countSymbol b (aiSymbol e) line, countSymbol b (humanSymbol e) line).
Proof.
  intros Hne Hlen. unfold countLine.
  rewrite countLine_from by (simpl; first [done | lia]). done.
Qed.

Lemma lineContribution_bounds (n my opp : Z) :
  -1000000 <= lineContribution n my opp <= 1000000.
Proof. unfold lineContribution. repeat case_match; lia. Qed.

Lemma scoreLine_spec (e : AIEngine) (b : Board.t) (score : Z) (line : list Z) :
  aiSymbol e <> humanSymbol e -> 3 <= Board.size b <= 6 ->
  Z.of_nat (length line) <= 2147483647 ->
  -2000000000 <= score <= 2000000000 ->
  scoreLine e b score line = score + lineValue e b line.
Proof.
  intros Hne Hn Hlen Hscore. unfold scoreLine, lineValue, Board.getSize.
  rewrite countLine_spec by done. simpl.
  set (my := countSymbol b (aiSymbol e) line).
  set (opp := countSymbol b (humanSymbol e) line).
  rewrite !(sub_small (Board.size b)) by lia.
  unfold lineContribution, WIN_SCORE.
  destruct (Z.ltb_spec 0 my), (Z.ltb_spec 0 opp); simpl; [lia| | |lia].
  - repeat case_match; rewrite ?add_small; lia.
  - repeat case_match; rewrite ?sub_small; lia.
Qed.

Lemma sumZ_cons (x : Z) (l : list Z) : sumZ (x :: l) = x + sumZ l.
Proof. reflexivity. Qed.

Lemma evaluate_from (e : AIEngine) (b : Board.t) (lines : list (list Z)) (score : Z) :
  aiSymbol e <> humanSymbol e -> 3 <= Board.size b <= 6 ->
  Forall (fun line => Z.of_nat (length line) <= 2147483647) lines ->
  -1000000 * (2000 - Z.of_nat (length lines)) <= score
    <= 1000000 * (2000 - Z.of_nat (length lines)) ->
  (length lines <= 2000)%nat ->
  fold_left (scoreLine e b) lines score = score + sumZ (lineValue e b <$> lines) /\
  -1000000 * Z.of_nat (length lines) <= sumZ (lineValue e b <$> lines)
    <= 1000000 * Z.of_nat (length lines).
Proof.
  intros Hne Hn Hlen. revert score.
  induction Hlen as [|line lines Hline _ IH]; intros score Hscore Hcount.
  - simpl. unfold sumZ; simpl. lia.
  - simpl fold_left. rewrite fmap_cons, sumZ_cons. simpl length in *.
    rewrite scoreLine_spec by (try done; lia).
    pose proof (lineContribution_bounds (Board.size b)
                  (countSymbol b (aiSymbol e) line)
                  (countSymbol b (humanSymbol e) line)) as Hb.
    fold (lineValue e b line) in Hb.
    destruct (IH (score + lineValue e b line)) as [-> Hsum]; lia.
Qed.

Lemma evaluateBoard_sum (e : AIEngine) (b : Board.t) :
  wfBoard b -> aiSymbol e <> humanSymbol e ->
  evaluateBoard e b = sumZ (lineValue e b <$> Board.winLines b).
Proof.
  intros Hwf Hne. pose proof (wfBoard_lines b Hwf) as [Hcount Hlines].
  destruct Hwf as (Hn & _ & _).
  unfold evaluateBoard, Board.getWinLines.
  destruct (evaluate_from e b (Board.winLines b) 0) as [-> _]; try done; try lia.
  eapply Forall_impl; [exact Hlines|]. intros line (_ & Hl & _). simpl. lia.
Qed.

(** C3. On a board of a legal size, with two distinct symbols,
    [evaluateBoard] is the sum over the win lines of the contribution that
    the tier table gives for the number of engine symbols and the number of
    opponent symbols on the line: 0 when both are positive; else 1000000,
    50000, 1000, 10 or 0 for size, size-1, size-2, at least 2 or fewer
    engine symbols; else -1000000, -55000, -2000, -20 or 0 for the same
    numbers of opponent symbols. *)
Theorem evaluateBoard_is_sum_of_tiers (e : AIEngine) (b : Board.t) :
  wfBoard b -> aiSymbol e <> humanSymbol e ->
  evaluateBoard e b = evaluateSpec e b.
Proof. apply evaluateBoard_sum. Qed.

Lemma evaluateBoard_is_sum_of_tiers_witness :
  wfBoard (boardOf 3 ["X"; "X"; " "; " "; " "; " "; " "; " "; " "]%char) /\
  evaluateBoard (gameEngine 3)
    (boardOf 3 ["X"; "X"; " "; " "; " "; " "; " "; " "; " "]%char) = 53000.
Proof.
  assert (wfBoard (boardOf 3 ["X"; "X"; " "; " "; " "; " "; " "; " "; " "]%char))
    as Hwf by (apply wfBoard_boardOf; [lia | reflexivity]).
  split; [exact Hwf|].
  rewrite (evaluateBoard_is_sum_of_tiers (gameEngine 3)
             (boardOf 3 ["X"; "X"; " "; " "; " "; " "; " "; " "; " "]%char) Hwf).
  - reflexivity.
  - discriminate.
Defined.

(** Whatever the symbols, one line moves the score by at most 1000000. *)
Lemma scoreLine_step (e : AIEngine) (b : Board.t) (score : Z) (line : list Z) :
  -2000000000 <= score <= 2000000000 ->
  score - 1000000 <= scoreLine e b score line <= score + 1000000.
Proof.
  intros Hscore. unfold scoreLine, WIN_SCORE.
  destruct (0 <? (countLine e b line).1), (0 <? (countLine e b line).2); simpl;
    repeat case_match; rewrite ?add_small, ?sub_small; lia.
Qed.

Lemma evaluateBoard_bounds (e : AIEngine) (b : Board.t) :
  wfBoard b -> -14000000 <= evaluateBoard e b <= 14000000.
Proof.
  intros [Hcount _]%wfBoard_lines. unfold evaluateBoard, Board.getWinLines.
  enough (forall lines score,
            (length lines <= 14)%nat ->
            -1000000 * (14 - Z.of_nat (length lines)) <= score
              <= 1000000 * (14 - Z.of_nat (length lines)) ->
            -14000000 <= fold_left (scoreLine e b) lines score <= 14000000) as H
    by (apply H; [done | lia]).
  induction lines as [|line lines IH]; intros score Hlen Hscore; simpl in *.
  - lia.
  - pose proof (scoreLine_step e b score line). apply IH; lia.
Qed.

Lemma evaluateBoard_in_range (e : AIEngine) (b : Board.t) :
  Int32.in_range (evaluateBoard e b).
Proof.
  unfold evaluateBoard.
  enough (forall lines score, Int32.in_range score ->
            Int32.in_range (fold_left (scoreLine e b) lines score)) as H
    by (apply H; unfold Int32.in_range, Int32.INT_MIN, Int32.INT_MAX; lia).
  induction lines as [|line lines IH]; intros score Hscore; simpl; [done|].
  apply IH. unfold scoreLine, Int32.add, Int32.sub.
  repeat case_match; auto using wrap_range.
Qed.

(** ** Exchanging the two symbols *)

Lemma lineContribution_swap (n my opp : Z) :
  lineContribution n opp my = mirrorTier (lineContribution n my opp).
Proof.
  unfold lineContribution, mirrorTier.
  destruct (Z.ltb_spec 0 my), (Z.ltb_spec 0 opp); simpl; [done| | |done].
  - repeat (case_match; try lia).
  - repeat (case_match; try lia).
Qed.

Lemma lineValue_swap (e : AIEngine) (b : Board.t) (line : list Z) :
  lineValue (swapSymbols e) b line = mirrorTier (lineValue e b line).
Proof. apply lineContribution_swap. Qed.

Lemma mirrorTier_terminal (v : Z) :
  v = 0 \/ v = 1000000 \/ v = -1000000 -> mirrorTier v = - v.
Proof. by intros [->|[->| ->]]. Qed.

(** C9, amended. Exchanging the two symbols turns the contribution of each
    win line into the same tier of the other table with the opposite sign
    (1000000 and -1000000, 50000 and -55000, 1000 and -2000, 10 and -20, 0
    and 0), and the score into the sum of these; the score is the exact
    negation where every line contributes 0, 1000000 or -1000000. *)
Theorem evaluateBoard_swapSymbols (e : AIEngine) (b : Board.t) :
  wfBoard b -> aiSymbol e <> humanSymbol e ->
  evaluateBoard (swapSymbols e) b
  = sumZ ((fun line => mirrorTier (lineValue e b line)) <$> Board.winLines b) /\
  (Forall (fun line => lineValue e b line = 0 \/ lineValue e b line = 1000000 \/
                       lineValue e b line = -1000000) (Board.winLines b) ->
   evaluateBoard (swapSymbols e) b = - evaluateBoard e b).
Proof.
  intros Hwf Hne.
  rewrite (evaluateBoard_sum (swapSymbols e) b Hwf) by (simpl; congruence).
  rewrite (evaluateBoard_sum e b Hwf Hne).
  split.
  - f_equal. apply list_fmap_ext. intros _ line _. apply lineValue_swap.
  - induction 1 as [|line lines Hline _ IH]; [done|].
    rewrite !fmap_cons, !sumZ_cons, IH, lineValue_swap, mirrorTier_terminal by done.
    lia.
Qed.

Lemma evaluateBoard_swapSymbols_witness :
  wfBoard (boardOf 3 ["X"; "X"; " "; " "; " "; " "; " "; " "; " "]%char) /\
  evaluateBoard (swapSymbols (gameEngine 3))
    (boardOf 3 ["X"; "X"; " "; " "; " "; " "; " "; " "; " "]%char) = -61000.
Proof.
  assert (wfBoard (boardOf 3 ["X"; "X"; " "; " "; " "; " "; " "; " "; " "]%char))
    as Hwf by (apply wfBoard_boardOf; [lia | reflexivity]).
  split; [exact Hwf|].
  destruct (evaluateBoard_swapSymbols (gameEngine 3)
              (boardOf 3 ["X"; "X"; " "; " "; " "; " "; " "; " "; " "]%char) Hwf)
    as [-> _]; [discriminate | reflexivity].
Defined.

(** C9 as stated fails: two engine symbols on the first row of the 3x3
    board score 53000, and -61000 once the symbols are exchanged. *)
Lemma evaluateBoard_swap_not_negation :
  evaluateBoard (swapSymbols (gameEngine 3))
    (boardOf 3 ["X"; "X"; " "; " "; " "; " "; " "; " "; " "]%char)
  <> - evaluateBoard (gameEngine 3)
         (boardOf 3 ["X"; "X"; " "; " "; " "; " "; " "; " "; " "]%char).
Proof. vm_compute. discriminate. Qed.

(** ** The search without cutoff *)

Lemma subseteq_cons_inv (i : Z) (rest l : list Z) :
  i :: rest ⊆ l -> i ∈ l /\ rest ⊆ l.
Proof.
  intros H. split; [apply H; left | intros x Hx; apply H; by right].
Qed.

Lemma maxAll_cons e p i rest b maxEval v :
  i ∈ Board.getEmptyCells b ->
  p (Board.set b i (aiSymbol e)) false = Some (v, Board.set b i (aiSymbol e)) ->
  maxAll e p (i :: rest) b maxEval = maxAll e p rest b (Z.max maxEval v).
Proof.
  intros [Hi Hl]%elem_of_getEmptyCells Hrec. simpl. rewrite Hrec.
  by rewrite set_restore.
Qed.

Lemma minAll_cons e p i rest b minEval v :
  i ∈ Board.getEmptyCells b ->
  p (Board.set b i (humanSymbol e)) true = Some (v, Board.set b i (humanSymbol e)) ->
  minAll e p (i :: rest) b minEval = minAll e p rest b (Z.min minEval v).
Proof.
  intros [Hi Hl]%elem_of_getEmptyCells Hrec. simpl. rewrite Hrec.
  by rewrite set_restore.
Qed.

(** What a returning loop over [i :: rest] did on [i]. *)
Lemma maxAll_cons_inv e p i rest b maxEval r :
  restoresNoCutoff p -> i ∈ Board.getEmptyCells b ->
  maxAll e p (i :: rest) b maxEval = Some r ->
  exists v, p (Board.set b i (aiSymbol e)) false = Some (v, Board.set b i (aiSymbol e)) /\
            maxAll e p rest b (Z.max maxEval v) = Some r.
Proof.
  intros Hp Hi Hrun.
  destruct (p (Board.set b i (aiSymbol e)) false) as [[v bv]|] eqn:Hcall;
    [|simpl in Hrun; by rewrite Hcall in Hrun].
  pose proof (Hp _ _ _ _ Hcall) as ->. exists v. split; [done|].
  by rewrite (maxAll_cons _ _ _ _ _ _ v) in Hrun.
Qed.

Lemma minAll_cons_inv e p i rest b minEval r :
  restoresNoCutoff p -> i ∈ Board.getEmptyCells b ->
  minAll e p (i :: rest) b minEval = Some r ->
  exists v, p (Board.set b i (humanSymbol e)) true = Some (v, Board.set b i (humanSymbol e)) /\
            minAll e p rest b (Z.min minEval v) = Some r.
Proof.
  intros Hp Hi Hrun.
  destruct (p (Board.set b i (humanSymbol e)) true) as [[v bv]|] eqn:Hcall;
    [|simpl in Hrun; by rewrite Hcall in Hrun].
  pose proof (Hp _ _ _ _ Hcall) as ->. exists v. split; [done|].
  by rewrite (minAll_cons _ _ _ _ _ _ v) in Hrun.
Qed.

Lemma maxAll_restores e p emptyCells b maxEval v b' :
  restoresNoCutoff p -> emptyCells ⊆ Board.getEmptyCells b ->
  maxAll e p emptyCells b maxEval = Some (v, b') -> b' = b /\ maxEval <= v.
Proof.
  intros Hp. revert maxEval.
  induction emptyCells as [|i rest IH]; intros maxEval Hsub Hrun.
  - simpl in Hrun. simplify_eq. split; [done | lia].
  - apply subseteq_cons_inv in Hsub as [Hi Hrest].
    apply maxAll_cons_inv in Hrun as (w & _ & Hrun); [|done..].
    apply IH in Hrun as [-> Hle]; [|done]. split; [done | lia].
Qed.

Lemma minAll_restores e p emptyCells b minEval v b' :
  restoresNoCutoff p -> emptyCells ⊆ Board.getEmptyCells b ->
  minAll e p emptyCells b minEval = Some (v, b') -> b' = b /\ v <= minEval.
Proof.
  intros Hp. revert minEval.
  induction emptyCells as [|i rest IH]; intros minEval Hsub Hrun.
  - simpl in Hrun. simplify_eq. split; [done | lia].
  - apply subseteq_cons_inv in Hsub as [Hi Hrest].
    apply minAll_cons_inv in Hrun as (w & _ & Hrun); [|done..].
    apply IH in Hrun as [-> Hle]; [|done]. split; [done | lia].
Qed.

Lemma minimaxNoCutoff_S fuel e board depth isMaximizing :
  minimaxNoCutoff (S fuel) e board depth isMaximizing =
  let winner := Board.checkWinner board in
  if Ascii.eqb winner (aiSymbol e) then Some (WIN_SCORE, board)
  else if Ascii.eqb winner (humanSymbol e) then Some (LOSS_SCORE, board)
  else if Ascii.eqb winner Board.DRAW then Some (0, board)
  else if depth =? 0 then Some (evaluateBoard e board, board)
  else
    let rec := fun b m => minimaxNoCutoff fuel e b (Int32.sub depth 1) m in
    if isMaximizing
    then maxAll e rec (Board.getEmptyCells board) board Int32.INT_MIN
    else minAll e rec (Board.getEmptyCells board) board Int32.INT_MAX.
Proof. reflexivity. Qed.

Lemma minimaxNoCutoff_restores fuel e depth :
  restoresNoCutoff (fun b m => minimaxNoCutoff fuel e b depth m).
Proof.
  revert depth. induction fuel as [|fuel IH]; intros depth b m v b'.
  - discriminate.
  - rewrite minimaxNoCutoff_S. cbv zeta.
    repeat (case_match; [congruence|]).
    destruct m; intros Hrun.
    + eapply maxAll_restores in Hrun as [-> _]; [done|apply IH|done].
    + eapply minAll_restores in Hrun as [-> _]; [done|apply IH|done].
Qed.

(** ** The cutoff does not change the value *)

Lemma agrees_refl (alpha beta v : Z) : agrees alpha beta v v.
Proof. unfold agrees. lia. Qed.

Lemma prunes_in_range p r b m v :
  prunes p r -> p b m = Some (v, b) -> Int32.in_range v.
Proof.
  intros Hpr Hcall.
  by destruct (Hpr b m v Int32.INT_MIN Int32.INT_MAX Hcall) as [Hv _].
Qed.

Lemma maxAll_in_range e p r emptyCells b P0 P :
  restoresNoCutoff p -> prunes p r -> emptyCells ⊆ Board.getEmptyCells b ->
  Int32.in_range P0 -> maxAll e p emptyCells b P0 = Some (P, b) ->
  Int32.in_range P.
Proof.
  intros Hp Hpr. revert P0.
  induction emptyCells as [|i rest IH]; intros P0 Hsub HP0 Hrun.
  - simpl in Hrun. by simplify_eq.
  - apply subseteq_cons_inv in Hsub as [Hi Hrest].
    apply maxAll_cons_inv in Hrun as (v & Hcall & Hrun); [|done..].
    apply (prunes_in_range _ _ _ _ _ Hpr) in Hcall.
    apply (IH (Z.max P0 v)); [done| |done].
    unfold Int32.in_range in *. lia.
Qed.

Lemma minAll_in_range e p r emptyCells b P0 P :
  restoresNoCutoff p -> prunes p r -> emptyCells ⊆ Board.getEmptyCells b ->
  Int32.in_range P0 -> minAll e p emptyCells b P0 = Some (P, b) ->
  Int32.in_range P.
Proof.
  intros Hp Hpr. revert P0.
  induction emptyCells as [|i rest IH]; intros P0 Hsub HP0 Hrun.
  - simpl in Hrun. by simplify_eq.
  - apply subseteq_cons_inv in Hsub as [Hi Hrest].
    apply minAll_cons_inv in Hrun as (v & Hcall & Hrun); [|done..].
    apply (prunes_in_range _ _ _ _ _ Hpr) in Hcall.
    apply (IH (Z.min P0 v)); [done| |done].
    unfold Int32.in_range in *. lia.
Qed.

(** The maximizing loop. [P0] is the running maximum of the loop without
    cutoff and [m0] the one of the loop with it; below [alpha0] both are,
    above it they are equal, and no cutoff has happened while both are
    below [beta]. *)
Lemma maxLoop_prunes e p r emptyCells b alpha0 beta :
  restoresNoCutoff p -> prunes p r -> emptyCells ⊆ Board.getEmptyCells b ->
  Int32.INT_MIN <= alpha0 -> alpha0 < beta -> beta <= Int32.INT_MAX ->
  forall P0 m0 P,
    Int32.in_range m0 -> P0 < beta -> m0 < beta ->
    (P0 <= alpha0 -> m0 <= alpha0) -> (alpha0 < P0 -> m0 = P0) ->
    maxAll e p emptyCells b P0 = Some (P, b) ->
    exists w, maxLoop e r emptyCells b m0 (Z.max alpha0 m0) beta = Some (w, b) /\
              Int32.in_range w /\ agrees alpha0 beta P w.
Proof.
  intros Hp Hpr Hsub Ha Hab Hb.
  induction emptyCells as [|i rest IH];
    intros P0 m0 P Hm0 HP0b Hm0b Hlow Hin Hrun.
  - simpl in Hrun. simplify_eq. exists m0. simpl.
    split; [done|]. split; [done|]. unfold agrees. lia.
  - apply subseteq_cons_inv in Hsub as [Hi Hrest].
    apply maxAll_cons_inv in Hrun as (v & Hcall & Hrun); [|done..].
    destruct (Hpr _ _ _ (Z.max alpha0 m0) beta Hcall) as (Hv & w & Hw & Hwr & Hag);
      [lia..|].
    rewrite (maxLoop_cons _ _ _ _ _ _ _ _ w); [|done..].
    unfold agrees in Hag. unfold Int32.in_range in *.
    destruct (Z.leb_spec beta (Z.max (Z.max alpha0 m0) w)) as [Hcut|Hcut].
    + apply maxAll_restores in Hrun as [_ Hge]; [|done..].
      exists (Z.max m0 w). split; [done|]. split; [lia|].
      unfold agrees. lia.
    + rewrite <- Z.max_assoc.
      apply (IH Hrest (Z.max P0 v) (Z.max m0 w) P); try done; lia.
Qed.

(** The minimizing loop, the mirror image. *)
Lemma minLoop_prunes e p r emptyCells b alpha beta0 :
  restoresNoCutoff p -> prunes p r -> emptyCells ⊆ Board.getEmptyCells b ->
  Int32.INT_MIN <= alpha -> alpha < beta0 -> beta0 <= Int32.INT_MAX ->
  forall P0 m0 P,
    Int32.in_range m0 -> alpha < P0 -> alpha < m0 ->
    (beta0 <= P0 -> beta0 <= m0) -> (P0 < beta0 -> m0 = P0) ->
    minAll e p emptyCells b P0 = Some (P, b) ->
    exists w, minLoop e r emptyCells b m0 alpha (Z.min beta0 m0) = Some (w, b) /\
              Int32.in_range w /\ agrees alpha beta0 P w.
Proof.
  intros Hp Hpr Hsub Ha Hab Hb.
  induction emptyCells as [|i rest IH];
    intros P0 m0 P Hm0 HP0a Hm0a Hhigh Hin Hrun.
  - simpl in Hrun. simplify_eq. exists m0. simpl.
    split; [done|]. split; [done|]. unfold agrees. lia.
  - apply subseteq_cons_inv in Hsub as [Hi Hrest].
    apply minAll_cons_inv in Hrun as (v & Hcall & Hrun); [|done..].
    destruct (Hpr _ _ _ alpha (Z.min beta0 m0) Hcall) as (Hv & w & Hw & Hwr & Hag);
      [lia..|].
    rewrite (minLoop_cons _ _ _ _ _ _ _ _ w); [|done..].
    unfold agrees in Hag. unfold Int32.in_range in *.
    destruct (Z.leb_spec (Z.min (Z.min beta0 m0) w) alpha) as [Hcut|Hcut].
    + apply minAll_restores in Hrun as [_ Hge]; [|done..].
      exists (Z.min m0 w). split; [done|]. split; [lia|].
      unfold agrees. lia.
    + rewrite <- Z.min_assoc.
      apply (IH Hrest (Z.min P0 v) (Z.min m0 w) P); try done; lia.
Qed.

Lemma minimax_prunes fuel e depth :
  prunes (fun b m => minimaxNoCutoff fuel e b depth m)
         (fun b a be m => minimax fuel e b depth a be m).
Proof.
  revert depth. induction fuel as [|fuel IH]; intros depth b m v alpha beta.
  - discriminate.
  - rewrite minimaxNoCutoff_S, minimax_S. cbv zeta.
    assert (forall c, Int32.INT_MIN <= c <= Int32.INT_MAX ->
              Some (c, b) = Some (v, b) -> Int32.INT_MIN <= alpha -> alpha < beta ->
              beta <= Int32.INT_MAX ->
              Int32.in_range v /\
              exists w, Some (c, b) = Some (w, b) /\ Int32.in_range w /\
                        agrees alpha beta v w) as Hleaf.
    { intros c Hc [= <-] _ _ _. split; [done|]. exists c.
      split; [done|]. split; [done | apply agrees_refl]. }
    case_match; [by apply Hleaf|]. case_match; [by apply Hleaf|].
    case_match; [by apply Hleaf|].
    case_match; [apply Hleaf, evaluateBoard_in_range|].
    pose proof (minimaxNoCutoff_restores fuel e (Int32.sub depth 1)) as Hp.
    specialize (IH (Int32.sub depth 1)).
    assert (Int32.INT_MIN < Int32.INT_MAX) as Hmm by done.
    destruct m; intros Hrun Ha Hab Hb.
    + split.
      { eapply (maxAll_in_range e _ _ _ b Int32.INT_MIN v Hp IH); [done| |done].
        unfold Int32.in_range. lia. }
      destruct (maxLoop_prunes e _ _ (Board.getEmptyCells b) b alpha beta Hp IH
                  ltac:(done) Ha Hab Hb Int32.INT_MIN Int32.INT_MIN v)
        as (w & Hw & Hwr); [unfold Int32.in_range; lia|lia..|done|].
      rewrite Z.max_l in Hw by done. by exists w.
    + split.
      { eapply (minAll_in_range e _ _ _ b Int32.INT_MAX v Hp IH); [done| |done].
        unfold Int32.in_range. lia. }
      destruct (minLoop_prunes e _ _ (Board.getEmptyCells b) b alpha beta Hp IH
                  ltac:(done) Ha Hab Hb Int32.INT_MAX Int32.INT_MAX v)
        as (w & Hw & Hwr); [unfold Int32.in_range; lia|lia..|done|].
      rewrite Z.min_l in Hw by done. by exists w.
Qed.

Lemma minimax_full_window fuel e b depth m v b' :
  minimaxNoCutoff fuel e b depth m = Some (v, b') ->
  minimax fuel e b depth Int32.INT_MIN Int32.INT_MAX m = Some (v, b').
Proof.
  intros Hrun. pose proof (minimaxNoCutoff_restores _ _ _ _ _ _ _ Hrun) as ->.
  destruct (minimax_prunes fuel e depth b m v Int32.INT_MIN Int32.INT_MAX Hrun)
    as (Hv & w & Hw & Hwr & Hag); [done..|].
  rewrite Hw. do 2 f_equal.
  unfold agrees, Int32.in_range, Int32.INT_MIN, Int32.INT_MAX in *. lia.
Qed.

Lemma bestLoop_full_window fuel e emptyCells b bestScore bestMove r :
  bestLoopNoCutoff fuel e emptyCells b bestScore bestMove = Some r ->
  bestLoop fuel e emptyCells b bestScore bestMove = Some r.
Proof.
  revert b bestScore bestMove.
  induction emptyCells as [|i rest IH]; intros b bestScore bestMove; simpl; [done|].
  destruct (minimaxNoCutoff fuel e _ _ _) as [[s b1]|] eqn:Hcall; [|done].
  rewrite (minimax_full_window _ _ _ _ _ _ _ Hcall).
  case_match; apply IH.
Qed.

(** ** The search returns *)

Lemma filter_length_le {A : Type} (p q : A -> bool) (l : list A) :
  (forall x, q x = true -> p x = true) ->
  (length (List.filter q l) <= length (List.filter p l))%nat.
Proof.
  intros Hqp. induction l as [|x l IH]; simpl; [done|].
  destruct (q x) eqn:Hq.
  - rewrite (Hqp x Hq). simpl. lia.
  - destruct (p x); simpl; lia.
Qed.

Lemma filter_length_lt {A : Type} (p q : A -> bool) (l : list A) (x : A) :
  (forall x, q x = true -> p x = true) ->
  x ∈ l -> p x = true -> q x = false ->
  (length (List.filter q l) < length (List.filter p l))%nat.
Proof.
  intros Hqp Hin Hp Hq. induction Hin as [x l|x y l Hin IH]; simpl.
  - rewrite Hp, Hq. simpl. pose proof (filter_length_le p q l Hqp). lia.
  - specialize (IH Hp Hq). destruct (q y) eqn:Hqy.
    + rewrite (Hqp y Hqy). simpl. lia.
    + destruct (p y); simpl; lia.
Qed.

Lemma get_set_ne (b : Board.t) (i j : Z) (s : ascii) :
  i <> j -> Board.get (Board.set b i s) j = Board.get b j.
Proof.
  intros Hij. unfold Board.get, Board.set.
  destruct (Z.ltb_spec i 0); [done|]. simpl.
  destruct (Z.ltb_spec j 0); [done|].
  rewrite list_lookup_insert_ne; [done|lia].
Qed.

Lemma get_set_eq (b : Board.t) (i : Z) (s : ascii) :
  0 <= i < Z.of_nat (length (Board.cells b)) ->
  Board.get (Board.set b i s) i = s.
Proof.
  intros Hi. unfold Board.get, Board.set.
  destruct (Z.ltb_spec i 0); [lia|]. simpl.
  rewrite list_lookup_insert_eq; [done|lia].
Qed.

Lemma length_cells_set (b : Board.t) (i : Z) (s : ascii) :
  length (Board.cells (Board.set b i s)) = length (Board.cells b).
Proof.
  unfold Board.set. destruct (i <? 0); [done|]. simpl. apply length_insert.
Qed.

Lemma getEmptyCells_set_lt (b : Board.t) (i : Z) (s : ascii) :
  i ∈ Board.getEmptyCells b -> s <> Board.EMPTY ->
  (length (Board.getEmptyCells (Board.set b i s))
   < length (Board.getEmptyCells b))%nat.
Proof.
  intros Hi Hs. apply elem_of_getEmptyCells in Hi as [Hi Hl].
  pose proof (lookup_lt_Some _ _ _ Hl) as Hlt.
  rewrite !getEmptyCells_filter, length_cells_set.
  apply (filter_length_lt _ _ _ i).
  - intros j. destruct (decide (i = j)) as [<-|Hij].
    + rewrite get_set_eq by lia. by intros ?%Ascii.eqb_eq.
    + by rewrite get_set_ne.
  - apply elem_of_seqZ. lia.
  - apply Ascii.eqb_eq, get_EMPTY_lookup. done.
  - rewrite get_set_eq by lia. by apply Ascii.eqb_neq.
Qed.

Lemma returnsWithin_child fuel e b depth i s :
  returnsWithin (S fuel) e b depth -> (depth =? 0) = false ->
  i ∈ Board.getEmptyCells b -> s = aiSymbol e \/ s = humanSymbol e ->
  returnsWithin fuel e (Board.set b i s) (Int32.sub depth 1).
Proof.
  intros [[Hd Hf]|(Hai & Hh & Hf)] Hd0 Hi Hs; [left|right].
  - apply Z.eqb_neq in Hd0. unfold Int32.INT_MAX in *.
    rewrite sub_small by lia. lia.
  - split; [done|]. split; [done|].
    assert (s <> Board.EMPTY) as Hne by (destruct Hs; congruence).
    pose proof (getEmptyCells_set_lt b i s Hi Hne). lia.
Qed.

Lemma maxAll_returns e p emptyCells b maxEval :
  (forall i, i ∈ emptyCells ->
     exists v, p (Board.set b i (aiSymbol e)) false
               = Some (v, Board.set b i (aiSymbol e))) ->
  emptyCells ⊆ Board.getEmptyCells b ->
  exists v, maxAll e p emptyCells b maxEval = Some (v, b).
Proof.
  revert maxEval. induction emptyCells as [|i rest IH]; intros maxEval Hp Hsub.
  - by eexists.
  - apply subseteq_cons_inv in Hsub as [Hi Hrest].
    destruct (Hp i) as [v Hv]; [left|].
    rewrite (maxAll_cons _ _ _ _ _ _ v) by done.
    apply IH; [|done]. intros j Hj. apply Hp. by right.
Qed.

Lemma minAll_returns e p emptyCells b minEval :
  (forall i, i ∈ emptyCells ->
     exists v, p (Board.set b i (humanSymbol e)) true
               = Some (v, Board.set b i (humanSymbol e))) ->
  emptyCells ⊆ Board.getEmptyCells b ->
  exists v, minAll e p emptyCells b minEval = Some (v, b).
Proof.
  revert minEval. induction emptyCells as [|i rest IH]; intros minEval Hp Hsub.
  - by eexists.
  - apply subseteq_cons_inv in Hsub as [Hi Hrest].
    destruct (Hp i) as [v Hv]; [left|].
    rewrite (minAll_cons _ _ _ _ _ _ v) by done.
    apply IH; [|done]. intros j Hj. apply Hp. by right.
Qed.

Lemma minimaxNoCutoff_returns fuel e b depth m :
  returnsWithin fuel e b depth ->
  exists v, minimaxNoCutoff fuel e b depth m = Some (v, b).
Proof.
  revert b depth m. induction fuel as [|fuel IH]; intros b depth m Hret.
  - destruct Hret as [[? ?]|(_ & _ & ?)]; lia.
  - rewrite minimaxNoCutoff_S. cbv zeta.
    repeat (case_match; [by eexists|]).
    destruct m.
    + apply maxAll_returns; [|done]. intros i Hi.
      apply IH, returnsWithin_child; auto.
    + apply minAll_returns; [|done]. intros i Hi.
      apply IH, returnsWithin_child; auto.
Qed.

Lemma bestLoopNoCutoff_returns fuel e emptyCells b :
  emptyCells ⊆ Board.getEmptyCells b ->
  (forall i, i ∈ emptyCells ->
     exists v, minimaxNoCutoff fuel e (Board.set b i (aiSymbol e)) (maxDepth e) false
               = Some (v, Board.set b i (aiSymbol e))) ->
  forall bestScore bestMove,
  exists move, bestLoopNoCutoff fuel e emptyCells b bestScore bestMove = Some (move, b).
Proof.
  induction emptyCells as [|i rest IH]; intros Hsub Hp bestScore bestMove.
  - by eexists.
  - apply subseteq_cons_inv in Hsub as [Hi Hrest].
    destruct (Hp i) as [v Hv]; [left|].
    apply elem_of_getEmptyCells in Hi as [Hi Hl].
    simpl. rewrite Hv, set_restore by done.
    assert (forall j, j ∈ rest ->
              exists v, minimaxNoCutoff fuel e (Board.set b j (aiSymbol e))
                          (maxDepth e) false
                        = Some (v, Board.set b j (aiSymbol e))) as Hp'
      by (intros j Hj; apply Hp; by right).
    case_match; by apply IH.
Qed.

Lemma returnsWithin_set fuel e b depth i :
  returnsWithin fuel e b depth -> i ∈ Board.getEmptyCells b ->
  returnsWithin fuel e (Board.set b i (aiSymbol e)) depth.
Proof.
  intros [?|(Hai & Hh & Hf)] Hi; [by left|right].
  split; [done|]. split; [done|].
  pose proof (getEmptyCells_set_lt b i (aiSymbol e) Hi Hai). lia.
Qed.

(** C7. With the window from the least to the greatest [int], [minimax]
    returns what the same recursion without the [beta <= alpha] cutoff
    returns, on every board, for every depth and for either player to
    move; so does [getBestMove], whose candidate scores these are. The
    search without cutoff returns within the depth budget, or within the
    number of empty cells when the symbols are not EMPTY. *)
Theorem cutoff_preserves_minimax
    (fuel : nat) (e : AIEngine) (b : Board.t) (depth : Z) (isMaximizing : bool) :
  (forall v b', minimaxNoCutoff fuel e b depth isMaximizing = Some (v, b') ->
     minimax fuel e b depth Int32.INT_MIN Int32.INT_MAX isMaximizing = Some (v, b')) /\
  (forall move b', getBestMoveNoCutoff fuel e b = Some (move, b') ->
     getBestMove fuel e b = Some (move, b')) /\
  (returnsWithin fuel e b depth ->
     exists v, minimaxNoCutoff fuel e b depth isMaximizing = Some (v, b) /\
               minimax fuel e b depth Int32.INT_MIN Int32.INT_MAX isMaximizing
               = Some (v, b)) /\
  (returnsWithin fuel e b (maxDepth e) ->
     exists move, getBestMoveNoCutoff fuel e b = Some (move, b) /\
                  getBestMove fuel e b = Some (move, b)).
Proof.
  split; [|split; [|split]].
  - intros v b'. apply minimax_full_window.
  - intros move b'. apply bestLoop_full_window.
  - intros Hret.
    destruct (minimaxNoCutoff_returns fuel e b depth isMaximizing Hret) as [v Hv].
    exists v. split; [done|]. by apply minimax_full_window.
  - intros Hret.
    destruct (bestLoopNoCutoff_returns fuel e (Board.getEmptyCells b) b)
      with (bestScore := Int32.INT_MIN) (bestMove := -1) as [move Hmove]; [done| |].
    { intros i Hi. by apply minimaxNoCutoff_returns, returnsWithin_set. }
    exists move. split; [done|]. by apply bestLoop_full_window.
Qed.


Lemma cutoff_preserves_minimax_witness :
  returnsWithin 101 (gameEngine 3)
    (boardOf 3 ["X"; "O"; "X"; "O"; "O"; " "; " "; " "; " "]%char) 100 /\
  exists v,
    minimaxNoCutoff 101 (gameEngine 3)
      (boardOf 3 ["X"; "O"; "X"; "O"; "O"; " "; " "; " "; " "]%char) 100 true
    = Some (v, boardOf 3 ["X"; "O"; "X"; "O"; "O"; " "; " "; " "; " "]%char) /\
    minimax 101 (gameEngine 3)
      (boardOf 3 ["X"; "O"; "X"; "O"; "O"; " "; " "; " "; " "]%char) 100
      Int32.INT_MIN Int32.INT_MAX true
    = Some (v, boardOf 3 ["X"; "O"; "X"; "O"; "O"; " "; " "; " "; " "]%char).
Proof.
  assert (returnsWithin 101 (gameEngine 3)
            (boardOf 3 ["X"; "O"; "X"; "O"; "O"; " "; " "; " "; " "]%char) 100)
    as Hret by (left; unfold Int32.INT_MAX; simpl; lia).
  split; [exact Hret|].
  apply (cutoff_preserves_minimax 101 (gameEngine 3)
           (boardOf 3 ["X"; "O"; "X"; "O"; "O"; " "; " "; " "; " "]%char) 100 true).
  exact Hret.
Defined.

(** ** The values of the search are bounded *)

Lemma forallb_false_lookup {A : Type} (p : A -> bool) (l : list A) :
  forallb p l = false -> exists k x, l !! k = Some x /\ p x = false.
Proof.
  induction l as [|x l IH]; simpl; [done|].
  destruct (p x) eqn:Hx; simpl.
  - intros (k & y & Hk & Hy)%IH. by exists (S k), y.
  - intros _. by exists O, x.
Qed.

Lemma isFull_false_empty_cell (b : Board.t) :
  Board.isFull b = false -> Board.getEmptyCells b <> [].
Proof.
  intros (k & c & Hk & Hc)%forallb_false_lookup.
  apply negb_false_iff, Ascii.eqb_eq in Hc. subst c.
  assert (Z.of_nat k ∈ Board.getEmptyCells b) as Hin.
  { apply elem_of_getEmptyCells. rewrite Nat2Z.id. split; [lia | done]. }
  intros Hnil. rewrite Hnil in Hin. by apply not_elem_of_nil in Hin.
Qed.

(** A position that the three terminal tests of [minimax] let through has
    an empty cell. *)
Lemma nonterminal_has_empty (e : AIEngine) (b : Board.t) :
  wfBoard b -> cellsOver e b ->
  Ascii.eqb (Board.checkWinner b) (aiSymbol e) = false ->
  Ascii.eqb (Board.checkWinner b) (humanSymbol e) = false ->
  Ascii.eqb (Board.checkWinner b) Board.DRAW = false ->
  Board.getEmptyCells b <> [].
Proof.
  intros Hwf Hover Hai Hh Hd. unfold Board.checkWinner in *.
  destruct (Board.checkLines b (Board.winLines b)) as [f|] eqn:Hc.
  - apply checkLines_Some_elem_of in Hc as [Hf Hin]; [|done].
    unfold cellsOver in Hover. rewrite Forall_forall in Hover.
    apply Ascii.eqb_neq in Hai, Hh. destruct (Hover f Hin) as [?|[?|?]]; done.
  - destruct (Board.isFull b) eqn:Hfull; [done|].
    by apply isFull_false_empty_cell.
Qed.

Lemma maxLoop_bounds e rec emptyCells b maxEval alpha beta v b' :
  restores rec -> emptyCells ⊆ Board.getEmptyCells b ->
  (forall i a be w, i ∈ emptyCells ->
     rec (Board.set b i (aiSymbol e)) a be false
       = Some (w, Board.set b i (aiSymbol e)) ->
     -14000000 <= w <= 14000000) ->
  (maxEval = Int32.INT_MIN /\ emptyCells <> []) \/ -14000000 <= maxEval <= 14000000 ->
  maxLoop e rec emptyCells b maxEval alpha beta = Some (v, b') ->
  -14000000 <= v <= 14000000.
Proof.
  intros Hrec. revert maxEval alpha.
  induction emptyCells as [|i rest IH]; intros maxEval alpha Hsub Hch Hinit Hrun.
  - simpl in Hrun. simplify_eq. destruct Hinit as [[_ ?]|?]; done.
  - apply subseteq_cons_inv in Hsub as [Hi Hrest].
    destruct (rec (Board.set b i (aiSymbol e)) alpha beta false)
      as [[w bw]|] eqn:Hcall; [|simpl in Hrun; by rewrite Hcall in Hrun].
    pose proof (Hrec _ _ _ _ _ _ Hcall) as ->.
    rewrite (maxLoop_cons _ _ _ _ _ _ _ _ w) in Hrun by done.
    assert (-14000000 <= w <= 14000000) as Hw by (eapply Hch; [left|done]).
    assert (-14000000 <= Z.max maxEval w <= 14000000) as Hmax
      by (unfold Int32.INT_MIN in Hinit; lia).
    destruct (beta <=? Z.max alpha w); [by simplify_eq|].
    eapply IH; [done| |by right|done].
    intros j a be w' Hj. apply Hch. by right.
Qed.

Lemma minLoop_bounds e rec emptyCells b minEval alpha beta v b' :
  restores rec -> emptyCells ⊆ Board.getEmptyCells b ->
  (forall i a be w, i ∈ emptyCells ->
     rec (Board.set b i (humanSymbol e)) a be true
       = Some (w, Board.set b i (humanSymbol e)) ->
     -14000000 <= w <= 14000000) ->
  (minEval = Int32.INT_MAX /\ emptyCells <> []) \/ -14000000 <= minEval <= 14000000 ->
  minLoop e rec emptyCells b minEval alpha beta = Some (v, b') ->
  -14000000 <= v <= 14000000.
Proof.
  intros Hrec. revert minEval beta.
  induction emptyCells as [|i rest IH]; intros minEval beta Hsub Hch Hinit Hrun.
  - simpl in Hrun. simplify_eq. destruct Hinit as [[_ ?]|?]; done.
  - apply subseteq_cons_inv in Hsub as [Hi Hrest].
    destruct (rec (Board.set b i (humanSymbol e)) alpha beta true)
      as [[w bw]|] eqn:Hcall; [|simpl in Hrun; by rewrite Hcall in Hrun].
    pose proof (Hrec _ _ _ _ _ _ Hcall) as ->.
    rewrite (minLoop_cons _ _ _ _ _ _ _ _ w) in Hrun by done.
    assert (-14000000 <= w <= 14000000) as Hw by (eapply Hch; [left|done]).
    assert (-14000000 <= Z.min minEval w <= 14000000) as Hmin
      by (unfold Int32.INT_MAX in Hinit; lia).
    destruct (Z.min beta w <=? alpha); [by simplify_eq|].
    eapply IH; [done| |by right|done].
    intros j a be w' Hj. apply Hch. by right.
Qed.

Lemma minimax_bounds fuel e b depth alpha beta m v b' :
  wfBoard b -> cellsOver e b ->
  minimax fuel e b depth alpha beta m = Some (v, b') ->
  -14000000 <= v <= 14000000.
Proof.
  revert b depth alpha beta m v b'.
  induction fuel as [|fuel IH]; intros b depth alpha beta m v b' Hwf Hover.
  - discriminate.
  - rewrite minimax_S. cbv zeta. unfold WIN_SCORE, LOSS_SCORE.
    destruct (Ascii.eqb _ (aiSymbol e)) eqn:Hai; [intros [= <- <-]; lia|].
    destruct (Ascii.eqb _ (humanSymbol e)) eqn:Hh; [intros [= <- <-]; lia|].
    destruct (Ascii.eqb _ Board.DRAW) eqn:Hd; [intros [= <- <-]; lia|].
    destruct (depth =? 0); [intros [= <- <-]; by apply evaluateBoard_bounds|].
    pose proof (nonterminal_has_empty e b Hwf Hover Hai Hh Hd) as Hne.
    destruct m.
    + apply maxLoop_bounds; [apply minimax_restores|done| |by left].
      intros i a be w Hi. apply IH; [by apply wfBoard_set|].
      apply cellsOver_set; auto.
    + apply minLoop_bounds; [apply minimax_restores|done| |by left].
      intros i a be w Hi. apply IH; [by apply wfBoard_set|].
      apply cellsOver_set; auto.
Qed.

(** ** getBestMove *)

Lemma filter_seqZ_split (p : Z -> bool) (len : nat) :
  forall m pre i post,
    List.filter p (seqZ m (Z.of_nat len)) = pre ++ i :: post ->
    (forall j, j ∈ pre -> j < i) /\ (forall j, j ∈ post -> i < j) /\ m <= i.
Proof.
  induction len as [|len IH]; intros m pre i post.
  - simpl. by destruct pre.
  - rewrite Nat2Z.inj_succ, seqZ_cons by lia.
    replace (Z.pred (Z.succ (Z.of_nat len))) with (Z.of_nat len) by lia.
    simpl. destruct (p m).
    + destruct pre as [|j0 pre]; simpl; intros [= <- Hrest].
      * split; [by intros j ?%not_elem_of_nil|]. split; [|lia].
        intros j Hj. rewrite <- Hrest in Hj.
        apply list_elem_of_In, filter_In in Hj as [Hj%list_elem_of_In _].
        apply elem_of_seqZ in Hj. lia.
      * apply IH in Hrest as (Hpre & Hpost & Hm). split; [|split; [done|lia]].
        intros j [->|Hj]%elem_of_cons; [lia | by apply Hpre].
    + intros (Hpre & Hpost & Hm)%IH. split; [done|]. split; [done|lia].
Qed.

Lemma getEmptyCells_split (b : Board.t) (pre post : list Z) (i : Z) :
  Board.getEmptyCells b = pre ++ i :: post ->
  (forall j, j ∈ pre -> j < i) /\ (forall j, j ∈ post -> i < j).
Proof.
  rewrite getEmptyCells_filter. intros (? & ? & _)%filter_seqZ_split. done.
Qed.

Lemma candidateScore_minimax fuel e b i s :
  candidateScore fuel e b i = Some s ->
  minimax fuel e (Board.set b i (aiSymbol e)) (maxDepth e)
          Int32.INT_MIN Int32.INT_MAX false
  = Some (s, Board.set b i (aiSymbol e)).
Proof.
  unfold candidateScore.
  destruct (minimax _ _ _ _ _ _ _) as [[w bw]|] eqn:Hcall; [|done].
  intros [= <-]. by rewrite (minimax_restores _ _ _ _ _ _ _ _ _ Hcall).
Qed.

(** The loop of [getBestMove] stops on the first of the greatest scores
    above the one it started with, or on the move it started with. *)
Lemma bestLoop_first_greatest fuel e b emptyCells :
  emptyCells ⊆ Board.getEmptyCells b ->
  (forall j, j ∈ emptyCells -> is_Some (candidateScore fuel e b j)) ->
  forall bestScore bestMove,
  exists i, bestLoop fuel e emptyCells b bestScore bestMove = Some (i, b) /\
    ((i = bestMove /\
      forall j sj, j ∈ emptyCells -> candidateScore fuel e b j = Some sj ->
                   sj <= bestScore) \/
     (exists s pre post,
        emptyCells = pre ++ i :: post /\ candidateScore fuel e b i = Some s /\
        bestScore < s /\
        (forall j sj, j ∈ pre -> candidateScore fuel e b j = Some sj -> sj < s) /\
        (forall j sj, j ∈ post -> candidateScore fuel e b j = Some sj -> sj <= s))).
Proof.
  induction emptyCells as [|i0 rest IH]; intros Hsub Hsc bestScore bestMove.
  - exists bestMove. split; [done|]. left. split; [done|].
    by intros j sj ?%not_elem_of_nil.
  - apply subseteq_cons_inv in Hsub as [Hi Hrest].
    destruct (Hsc i0) as [s0 Hs0]; [left|].
    assert (forall j, j ∈ rest -> is_Some (candidateScore fuel e b j)) as Hsc'
      by (intros j Hj; apply Hsc; by right).
    rewrite (bestLoop_cons _ _ _ _ _ _ _ s0);
      [|done|by apply candidateScore_minimax].
    destruct (Z.ltb_spec bestScore s0) as [Hlt|Hge].
    + destruct (IH Hrest Hsc' s0 i0) as (i & Hrun & Hres). exists i.
      split; [done|]. right.
      destruct Hres as [[-> Hall]|(s & pre & post & -> & Hs & Hlt' & Hpre & Hpost)].
      * exists s0, [], rest. repeat split; try done.
        by intros j sj ?%not_elem_of_nil.
      * exists s, (i0 :: pre), post. repeat split; try done; [lia|].
        intros j sj [->|Hj]%elem_of_cons Hsj; [|by eapply Hpre].
        rewrite Hs0 in Hsj. simplify_eq. lia.
    + destruct (IH Hrest Hsc' bestScore bestMove) as (i & Hrun & Hres). exists i.
      split; [done|].
      destruct Hres as [[-> Hall]|(s & pre & post & -> & Hs & Hlt' & Hpre & Hpost)].
      * left. split; [done|].
        intros j sj [->|Hj]%elem_of_cons Hsj; [|by eapply Hall].
        rewrite Hs0 in Hsj. simplify_eq. lia.
      * right. exists s, (i0 :: pre), post. repeat split; try done.
        intros j sj [->|Hj]%elem_of_cons Hsj; [|by eapply Hpre].
        rewrite Hs0 in Hsj. simplify_eq. lia.
Qed.

(** Every candidate move has a score, and a bounded one. *)
Lemma candidateScore_bounded fuel e b i :
  wfBoard b -> cellsOver e b -> returnsWithin fuel e b (maxDepth e) ->
  i ∈ Board.getEmptyCells b ->
  exists s, candidateScore fuel e b i = Some s /\ -14000000 <= s <= 14000000.
Proof.
  intros Hwf Hover Hret Hi.
  destruct (minimaxNoCutoff_returns fuel e (Board.set b i (aiSymbol e))
              (maxDepth e) false) as [s Hs]; [by apply returnsWithin_set|].
  apply minimax_full_window in Hs. exists s.
  split; [unfold candidateScore; by rewrite Hs|].
  eapply minimax_bounds; [by apply wfBoard_set| |done].
  apply cellsOver_set; auto.
Qed.

Lemma getBestMove_spec (fuel : nat) (e : AIEngine) (b : Board.t) :
  wfBoard b -> cellsOver e b -> returnsWithin fuel e b (maxDepth e) ->
  (Board.getEmptyCells b = [] -> getBestMove fuel e b = Some (-1, b)) /\
  (Board.getEmptyCells b <> [] ->
   exists i s,
     getBestMove fuel e b = Some (i, b) /\
     i ∈ Board.getEmptyCells b /\
     candidateScore fuel e b i = Some s /\
     forall j, j ∈ Board.getEmptyCells b ->
       exists sj, candidateScore fuel e b j = Some sj /\
                  sj <= s /\ (j < i -> sj < s)).
Proof.
  intros Hwf Hover Hret. split.
  - unfold getBestMove. by intros ->.
  - intros Hne.
    assert (forall j, j ∈ Board.getEmptyCells b ->
              exists sj, candidateScore fuel e b j = Some sj /\
                         -14000000 <= sj <= 14000000) as Hsc
      by (intros j Hj; by apply candidateScore_bounded).
    destruct (bestLoop_first_greatest fuel e b (Board.getEmptyCells b))
      with (bestScore := Int32.INT_MIN) (bestMove := -1) as (i & Hrun & Hres).
    { done. }
    { intros j Hj. destruct (Hsc j Hj) as (sj & -> & _). by eexists. }
    destruct Hres as [[_ Hall]|(s & pre & post & Heq & Hs & _ & Hpre & Hpost)].
    + destruct (Board.getEmptyCells b) as [|j0 rest] eqn:Hcells; [done|].
      destruct (Hsc j0) as (s0 & Hs0 & Hb0); [left|].
      specialize (Hall j0 s0 ltac:(left) Hs0). unfold Int32.INT_MIN in Hall. lia.
    + exists i, s. split; [done|].
      split; [rewrite Heq; apply elem_of_app; right; left|]. split; [done|].
      intros j Hj. destruct (Hsc j Hj) as (sj & Hsj & _). exists sj.
      split; [done|].
      destruct (getEmptyCells_split b pre post i Heq) as [Hlow Hhigh].
      rewrite Heq in Hj.
      apply elem_of_app in Hj as [Hj|[->|Hj]%elem_of_cons].
      * specialize (Hpre j sj Hj Hsj). lia.
      * rewrite Hs in Hsj. simplify_eq. lia.
      * specialize (Hpost j sj Hj Hsj). specialize (Hhigh j Hj). lia.
Qed.

(** C4. On a board of a legal size whose cells hold EMPTY or one of the two
    symbols, [getBestMove] returns -1 when no cell is empty, and otherwise
    the empty index whose score (the value of [minimax] after placing the
    engine's symbol there, opponent to move, depth [maxDepth], window from
    the least to the greatest [int]) is the greatest, the lowest such index
    when several share it. *)
Theorem getBestMove_first_greatest (fuel : nat) (e : AIEngine) (b : Board.t) :
  wfBoard b -> cellsOver e b -> returnsWithin fuel e b (maxDepth e) ->
  (Board.getEmptyCells b = [] -> getBestMove fuel e b = Some (-1, b)) /\
  (Board.getEmptyCells b <> [] ->
   exists i s,
     getBestMove fuel e b = Some (i, b) /\
     i ∈ Board.getEmptyCells b /\
     candidateScore fuel e b i = Some s /\
     forall j, j ∈ Board.getEmptyCells b ->
       exists sj, candidateScore fuel e b j = Some sj /\
                  sj <= s /\ (j < i -> sj < s)).
Proof. apply getBestMove_spec. Qed.

Lemma getBestMove_first_greatest_witness :
  wfBoard (boardOf 3 ["X"; "X"; " "; "O"; "O"; " "; " "; " "; " "]%char) /\
  getBestMove 101 (gameEngine 3)
    (boardOf 3 ["X"; "X"; " "; "O"; "O"; " "; " "; " "; " "]%char)
  = Some (2, boardOf 3 ["X"; "X"; " "; "O"; "O"; " "; " "; " "; " "]%char).
Proof.
  assert (wfBoard (boardOf 3 ["X"; "X"; " "; "O"; "O"; " "; " "; " "; " "]%char))
    as Hwf by (apply wfBoard_boardOf; [lia | reflexivity]).
  split; [exact Hwf|].
  destruct (getBestMove_first_greatest 101 (gameEngine 3)
              (boardOf 3 ["X"; "X"; " "; "O"; "O"; " "; " "; " "; " "]%char) Hwf)
    as [_ Hbest].
  - solve_cellsOver.
  - left. change (maxDepth (gameEngine 3)) with 100. unfold Int32.INT_MAX. lia.
  - destruct Hbest as (i & s & Hrun & _); [discriminate|].
    rewrite Hrun. vm_compute in Hrun. by simplify_eq.
Defined.

(** C10. On such a board with an empty cell, and with a positive depth
    budget, [getBestMove] returns the index of a cell of the board that is
    EMPTY, not -1: [minimax] returns values above the least [int] there,
    so the first candidate already beats the initial best score. *)
Theorem getBestMove_returns_empty_cell (fuel : nat) (e : AIEngine) (b : Board.t) :
  wfBoard b -> cellsOver e b ->
  0 < maxDepth e <= Int32.INT_MAX -> maxDepth e < Z.of_nat fuel ->
  Board.getEmptyCells b <> [] ->
  (exists i, getBestMove fuel e b = Some (i, b) /\
             0 <= i < Board.size b * Board.size b /\
             Board.isEmpty b i = true) /\
  (forall fuel' depth alpha beta m v b',
     minimax fuel' e b depth alpha beta m = Some (v, b') -> Int32.INT_MIN < v).
Proof.
  intros Hwf Hover Hdepth Hfuel Hne. split.
  - destruct (getBestMove_spec fuel e b Hwf Hover) as [_ Hbest];
      [left; lia|].
    destruct (Hbest Hne) as (i & s & Hrun & Hi & _). exists i. split; [done|].
    apply elem_of_getEmptyCells in Hi as [Hi Hl].
    pose proof (lookup_lt_Some _ _ _ Hl) as Hlt.
    destruct Hwf as (Hn & Hlen & _). split; [lia|].
    unfold Board.isEmpty. apply Ascii.eqb_eq, get_EMPTY_lookup. done.
  - intros fuel' depth alpha beta m v b' Hrun.
    apply minimax_bounds in Hrun; [|done..]. unfold Int32.INT_MIN. lia.
Qed.

Lemma getBestMove_returns_empty_cell_witness :
  wfBoard (boardOf 4 (replicate 15 "O"%char ++ [" "%char])) /\
  exists i, getBestMove 7 (gameEngine 4) (boardOf 4 (replicate 15 "O"%char ++ [" "%char]))
            = Some (i, boardOf 4 (replicate 15 "O"%char ++ [" "%char])) /\
            0 <= i < 4 * 4 /\
            Board.isEmpty (boardOf 4 (replicate 15 "O"%char ++ [" "%char])) i = true.
Proof.
  assert (wfBoard (boardOf 4 (replicate 15 "O"%char ++ [" "%char])))
    as Hwf by (apply wfBoard_boardOf; [lia | reflexivity]).
  split; [exact Hwf|].
  apply (getBestMove_returns_empty_cell 7 (gameEngine 4)
           (boardOf 4 (replicate 15 "O"%char ++ [" "%char])) Hwf).
  - solve_cellsOver.
  - change (maxDepth (gameEngine 4)) with 6. unfold Int32.INT_MAX. lia.
  - change (maxDepth (gameEngine 4)) with 6. lia.
  - discriminate.
Defined.

(** Why the two theorems on [getBestMove] ask for cells over the symbols of
    the engine: a line taken by a third symbol stops no test of [minimax],
    the search runs to the full board, and both candidates score the least
    [int]. *)
Example getBestMove_third_symbol :
  getBestMove 101 (gameEngine 3)
    (boardOf 3 ["Z"; "Z"; "Z"; "X"; "O"; "X"; "O"; " "; " "]%char)
  = Some (-1, boardOf 3 ["Z"; "Z"; "Z"; "X"; "O"; "X"; "O"; " "; " "]%char).
Proof. vm_compute. reflexivity. Qed.

(** * More of the board *)

(** ** The constructor, get and set *)

Lemma create_None (n : Z) : n < 3 \/ 6 < n -> Board.create n = None.
Proof.
  intros Hn. unfold Board.create.
  destruct (Z.ltb_spec n 3), (Z.ltb_spec 6 n); simpl; [done..|lia].
Qed.

(** X1. The constructor fails exactly for a size outside 3..6; the board
    it builds otherwise has that size and size*size cells, all EMPTY: every
    index is an empty cell, the board is not full and has no winner. *)
Theorem create_fresh_board (n : Z) :
  (n < 3 \/ 6 < n <-> Board.create n = None) /\
  (3 <= n <= 6 ->
   exists b, Board.create n = Some b /\ wfBoard b /\
     Board.size b = n /\
     Board.cells b = replicate (Z.to_nat (n * n)) Board.EMPTY /\
     Board.getEmptyCells b = seqZ 0 (n * n) /\
     Board.isFull b = false /\
     Board.checkWinner b = Board.NO_WINNER).
Proof.
  split.
  - split; [apply create_None|]. intros Hnone.
    destruct (Z.le_gt_cases 3 n); [|lia]. destruct (Z.le_gt_cases n 6); [|lia].
    by rewrite create_Some in Hnone by lia.
  - intros Hn. eexists. split; [by apply create_Some|].
    split; [apply wfBoard_boardOf; [done | by rewrite length_replicate]|].
    split; [done|]. split; [done|].
    destruct (size_cases n Hn) as [-> | [-> | [-> | ->]]];
      repeat split; vm_compute; reflexivity.
Qed.

Lemma create_fresh_board_witness :
  Board.create 7 = None /\
  exists b, Board.create 4 = Some b /\ wfBoard b /\ Board.size b = 4 /\
            Board.isFull b = false.
Proof.
  destruct (create_fresh_board 7) as [[Hnone _] _].
  destruct (create_fresh_board 4) as [_ Hsome].
  split; [apply Hnone; lia|].
  destruct Hsome as (b & Hb & Hwf & Hsize & _ & _ & Hfull & _); [lia|].
  exists b. done.
Defined.

(** X2. Writing a symbol to an index of the board and reading it back
    gives the symbol; every other index reads as before; the size, the
    number of cells and the win lines are untouched. *)
Theorem set_then_get (b : Board.t) (i : Z) (s : ascii) :
  0 <= i < Z.of_nat (length (Board.cells b)) ->
  Board.get (Board.set b i s) i = s /\
  (forall j, j <> i -> Board.get (Board.set b i s) j = Board.get b j) /\
  Board.isEmpty (Board.set b i s) i = Ascii.eqb s Board.EMPTY /\
  Board.size (Board.set b i s) = Board.size b /\
  length (Board.cells (Board.set b i s)) = length (Board.cells b) /\
  Board.winLines (Board.set b i s) = Board.winLines b.
Proof.
  intros Hi. split; [by apply get_set_eq|].
  split; [intros j Hj; by apply get_set_ne|].
  split; [unfold Board.isEmpty; by rewrite get_set_eq|].
  split; [|split; [apply length_cells_set|]];
    unfold Board.set; by destruct (i <? 0).
Qed.

Lemma set_then_get_witness :
  0 <= 4 < Z.of_nat (length (Board.cells board3)) /\
  Board.get (Board.set board3 4 "X"%char) 4 = "X"%char /\
  Board.get (Board.set board3 4 "X"%char) 5 = Board.EMPTY.
Proof.
  assert (0 <= 4 < Z.of_nat (length (Board.cells board3))) as Hi
    by (simpl; lia).
  split; [exact Hi|].
  destruct (set_then_get board3 4 "X"%char Hi) as (Hget & Hother & _).
  split; [exact Hget|]. rewrite Hother by lia. reflexivity.
Defined.

(** ** isFull and getEmptyCells *)

Lemma isFull_true_no_empty (b : Board.t) :
  Board.isFull b = true -> Board.getEmptyCells b = [].
Proof.
  intros Hfull. unfold Board.isFull in Hfull. rewrite forallb_forall in Hfull.
  destruct (Board.getEmptyCells b) as [|i rest] eqn:Hcells; [done|].
  assert (i ∈ Board.getEmptyCells b) as Hi by (rewrite Hcells; left).
  apply elem_of_getEmptyCells in Hi as [_ Hl].
  apply list_elem_of_lookup_2, list_elem_of_In, Hfull in Hl. done.
Qed.

(** X3. [isFull] and [getEmptyCells] agree: the board is full exactly when
    the list of empty cells is empty. *)
Theorem isFull_iff_no_empty_cells (b : Board.t) :
  Board.isFull b = true <-> Board.getEmptyCells b = [].
Proof.
  split; [apply isFull_true_no_empty|]. intros Hnil.
  destruct (Board.isFull b) eqn:Hfull; [done|].
  by apply isFull_false_empty_cell in Hfull.
Qed.

Lemma filter_seqZ_sorted (p : Z -> bool) (len : nat) :
  forall m, StronglySorted Z.lt (List.filter p (seqZ m (Z.of_nat len))).
Proof.
  induction len as [|len IH]; intros m; [constructor|].
  rewrite Nat2Z.inj_succ, seqZ_cons by lia.
  replace (Z.pred (Z.succ (Z.of_nat len))) with (Z.of_nat len) by lia.
  simpl. destruct (p m); [|apply IH]. constructor; [apply IH|].
  apply Forall_forall. intros j Hj.
  apply list_elem_of_In, filter_In in Hj as [Hj%list_elem_of_In _].
  apply elem_of_seqZ in Hj. lia.
Qed.

Lemma getEmptyCells_sorted (b : Board.t) :
  StronglySorted Z.lt (Board.getEmptyCells b).
Proof. rewrite getEmptyCells_filter. apply filter_seqZ_sorted. Qed.

(** X4. [getEmptyCells] lists exactly the indices of the board that hold
    EMPTY, each once, in strictly ascending order. *)
Theorem getEmptyCells_ascending (b : Board.t) :
  StronglySorted Z.lt (Board.getEmptyCells b) /\
  forall i, i ∈ Board.getEmptyCells b <->
            0 <= i < Z.of_nat (length (Board.cells b)) /\
            Board.isEmpty b i = true.
Proof.
  split; [apply getEmptyCells_sorted|].
  intros i. rewrite elem_of_getEmptyCells. unfold Board.isEmpty.
  rewrite Ascii.eqb_eq, get_EMPTY_lookup. split.
  - intros [Hi Hl]. pose proof (lookup_lt_Some _ _ _ Hl). split; [lia | done].
  - intros [_ H]. exact H.
Qed.

Lemma filter_filter_and {A : Type} (p q : A -> bool) (l : list A) :
  List.filter q (List.filter p l) = List.filter (fun x => p x && q x) l.
Proof.
  induction l as [|x l IH]; simpl; [done|].
  destruct (p x); simpl; [destruct (q x); by rewrite IH | done].
Qed.

(** X5. Placing a symbol other than EMPTY on an empty cell takes exactly
    that index out of the list of empty cells, which gets one shorter. *)
Theorem getEmptyCells_after_move (b : Board.t) (i : Z) (s : ascii) :
  i ∈ Board.getEmptyCells b -> s <> Board.EMPTY ->
  Board.getEmptyCells (Board.set b i s)
  = List.filter (fun j => negb (j =? i)) (Board.getEmptyCells b) /\
  S (length (Board.getEmptyCells (Board.set b i s)))
  = length (Board.getEmptyCells b).
Proof.
  intros Hi Hs.
  assert (Board.getEmptyCells (Board.set b i s)
          = List.filter (fun j => negb (j =? i)) (Board.getEmptyCells b)) as Heq.
  { apply elem_of_getEmptyCells in Hi as [Hi Hl].
    pose proof (lookup_lt_Some _ _ _ Hl) as Hlt.
    rewrite !getEmptyCells_filter, length_cells_set, filter_filter_and.
    apply filter_ext. intros j. destruct (Z.eqb_spec j i) as [->|Hji].
    - rewrite get_set_eq by lia. rewrite andb_false_r. by apply Ascii.eqb_neq.
    - rewrite get_set_ne by done. by rewrite andb_true_r. }
  split; [done|]. rewrite Heq.
  pose proof (getEmptyCells_sorted b) as Hsorted.
  apply list_elem_of_In in Hi. revert Hsorted Hi.
  generalize (Board.getEmptyCells b). intros l.
  induction 1 as [|j l Hl IH Hj]; intros Hin; [done|]. simpl.
  destruct Hin as [->|Hin].
  - rewrite Z.eqb_refl. simpl. f_equal.
    rewrite forallb_filter_id; [done|]. apply forallb_forall. intros k Hk.
    rewrite Forall_forall in Hj. apply list_elem_of_In, Hj in Hk.
    apply negb_true_iff, Z.eqb_neq. lia.
  - destruct (Z.eqb_spec j i) as [->|Hji]; simpl.
    + rewrite Forall_forall in Hj. apply list_elem_of_In, Hj in Hin. lia.
    + f_equal. by apply IH.
Qed.

Lemma getEmptyCells_after_move_witness :
  4 ∈ Board.getEmptyCells board3 /\
  Board.getEmptyCells (Board.set board3 4 "X"%char) = [0; 1; 2; 3; 5; 6; 7; 8].
Proof.
  assert (4 ∈ Board.getEmptyCells board3) as Hi
    by (apply elem_of_getEmptyCells; split; [lia | reflexivity]).
  split; [exact Hi|].
  destruct (getEmptyCells_after_move board3 4 "X"%char Hi) as [-> _];
    [discriminate | reflexivity].
Defined.

(** X6. [copy] of a board of a legal size succeeds and gives a board with
    the same size, cells and win lines; on a size outside 3..6 it fails as
    the constructor does. *)
Theorem copy_same_board (b : Board.t) :
  (wfBoard b -> Board.copy b = Some b) /\
  (Board.size b < 3 \/ 6 < Board.size b -> Board.copy b = None).
Proof.
  split.
  - intros (Hn & Hlen & Hlines). unfold Board.copy.
    rewrite create_Some by done. unfold boardOf. simpl.
    destruct b as [n cs wl]. simpl in *. by rewrite Hlines.
  - intros Hn. unfold Board.copy. by rewrite create_None.
Qed.

Lemma copy_same_board_witness :
  wfBoard (Board.set board3 4 "X"%char) /\
  Board.copy (Board.set board3 4 "X"%char) = Some (Board.set board3 4 "X"%char).
Proof.
  assert (wfBoard (Board.set board3 4 "X"%char)) as Hwf
    by (apply wfBoard_set, wfBoard_boardOf; [lia | reflexivity]).
  split; [exact Hwf|].
  by apply (copy_same_board (Board.set board3 4 "X"%char)).
Defined.

(** ** HumanPlayer::getMove *)





(** ** checkWinner after a move *)

Lemma checkWinner_NO_WINNER_not_won (b : Board.t) :
  wfBoard b -> noMarkerCells b -> Board.checkWinner b = Board.NO_WINNER ->
  Forall (notWon b) (Board.winLines b).
Proof.
  intros Hwf Hcells Hw. unfold Board.checkWinner in Hw.
  destruct (Board.checkLines b (Board.winLines b)) as [f|] eqn:Hc.
  - apply checkLines_Some_elem_of in Hc as [_ Hin]; [|done]. subst f.
    unfold noMarkerCells in Hcells. rewrite Forall_forall in Hcells.
    by destruct (Hcells _ Hin).
  - apply checkLines_None in Hc; [done | by apply wfBoard_lines_nonempty].
Qed.

Lemma uniform_set_off_line (b : Board.t) (i : Z) (s f : ascii) (line : list Z) :
  i ∉ line -> uniform (Board.set b i s) f line -> uniform b f line.
Proof.
  unfold uniform. rewrite !Forall_forall. intros Hi Hu idx Hidx.
  rewrite <- (Hu idx Hidx). symmetry. apply get_set_ne. by intros ->.
Qed.

(** X8. When a symbol is placed on an empty cell of a board without a
    winner, [checkWinner] reports that symbol, a draw or no winner, never
    another symbol; and it reports the symbol only by a line through the
    cell just written. *)
Theorem checkWinner_after_move (b : Board.t) (i : Z) (s : ascii) :
  wfBoard b -> noMarkerCells b -> Board.checkWinner b = Board.NO_WINNER ->
  i ∈ Board.getEmptyCells b -> s <> Board.EMPTY ->
  (Board.checkWinner (Board.set b i s) = s \/
   Board.checkWinner (Board.set b i s) = Board.DRAW \/
   Board.checkWinner (Board.set b i s) = Board.NO_WINNER) /\
  (forall f, Board.checkLines (Board.set b i s) (Board.winLines b) = Some f ->
     f = s /\
     exists line, line ∈ Board.winLines b /\ i ∈ line /\
                  uniform (Board.set b i s) s line).
Proof.
  intros Hwf Hcells Hw Hi Hs.
  pose proof (checkWinner_NO_WINNER_not_won b Hwf Hcells Hw) as Hnot.
  assert (Board.winLines (Board.set b i s) = Board.winLines b) as Hlines
    by (unfold Board.set; by destruct (i <? 0)).
  apply elem_of_getEmptyCells in Hi as [Hi0 Hl].
  pose proof (lookup_lt_Some _ _ _ Hl) as Hlt.
  assert (forall f, Board.checkLines (Board.set b i s) (Board.winLines b) = Some f ->
            f = s /\
            exists line, line ∈ Board.winLines b /\ i ∈ line /\
                         uniform (Board.set b i s) s line) as Hsome.
  { intros f Hc. apply checkLines_Some in Hc; [|by apply wfBoard_lines_nonempty].
    destruct Hc as (pre & line & post & Heq & Hf & Hu & _).
    assert (line ∈ Board.winLines b) as Hin
      by (rewrite Heq; apply elem_of_app; right; left).
    destruct (decide (i ∈ line)) as [Hon|Hoff].
    - assert (f = s) as ->.
      { unfold uniform in Hu. rewrite Forall_forall in Hu.
        rewrite <- (Hu i Hon). apply get_set_eq. lia. }
      split; [done|]. by exists line.
    - apply uniform_set_off_line in Hu; [|done].
      rewrite Forall_forall in Hnot. by destruct (Hnot line Hin f). }
  split; [|exact Hsome].
  unfold Board.checkWinner. rewrite Hlines.
  destruct (Board.checkLines (Board.set b i s) (Board.winLines b)) as [f|] eqn:Hc.
  - left. by destruct (Hsome f eq_refl).
  - right. destruct (Board.isFull _); auto.
Qed.

Lemma checkWinner_after_move_witness :
  Board.checkWinner (boardOf 3 ["X"; "X"; " "; "O"; "O"; " "; " "; " "; " "]%char)
  = Board.NO_WINNER /\
  (Board.checkWinner
     (Board.set (boardOf 3 ["X"; "X"; " "; "O"; "O"; " "; " "; " "; " "]%char)
                2 "X"%char) = "X"%char \/
   Board.checkWinner
     (Board.set (boardOf 3 ["X"; "X"; " "; "O"; "O"; " "; " "; " "; " "]%char)
                2 "X"%char) = Board.DRAW \/
   Board.checkWinner
     (Board.set (boardOf 3 ["X"; "X"; " "; "O"; "O"; " "; " "; " "; " "]%char)
                2 "X"%char) = Board.NO_WINNER).
Proof.
  split; [reflexivity|].
  apply (checkWinner_after_move
           (boardOf 3 ["X"; "X"; " "; "O"; "O"; " "; " "; " "; " "]%char) 2 "X"%char).
  - apply wfBoard_boardOf; [lia | reflexivity].
  - repeat (constructor; [split; discriminate|]). constructor.
  - reflexivity.
  - apply elem_of_getEmptyCells. split; [lia | reflexivity].
  - discriminate.
Defined.

(** * More of the engine *)

(** ** The evaluator on quiet boards *)

Lemma countSymbol_absent (b : Board.t) (s : ascii) (line : list Z) :
  s ∉ Board.cells b ->
  Forall (fun idx => 0 <= idx < Z.of_nat (length (Board.cells b))) line ->
  countSymbol b s line = 0.
Proof.
  intros Hs. induction 1 as [|idx line Hidx _ IH]; [done|].
  rewrite countSymbol_cons, IH.
  destruct (Ascii.eqb_spec (Board.get b idx) s) as [<-|]; [|done].
  destruct Hs. by apply get_elem_of.
Qed.

(** X9. With two distinct symbols, [evaluateBoard] is 0 on every board of
    a legal size on which neither symbol occurs, such as the board the
    constructor builds. *)
Theorem evaluateBoard_without_symbols (e : AIEngine) (b : Board.t) :
  wfBoard b -> aiSymbol e <> humanSymbol e ->
  aiSymbol e ∉ Board.cells b -> humanSymbol e ∉ Board.cells b ->
  evaluateBoard e b = 0.
Proof.
  intros Hwf Hne Hai Hh. rewrite evaluateBoard_sum by done.
  destruct (wfBoard_lines b Hwf) as [_ Hlines].
  induction Hlines as [|line lines (_ & _ & Hidx) _ IH]; [done|].
  rewrite fmap_cons, sumZ_cons, IH. unfold lineValue.
  by rewrite !countSymbol_absent.
Qed.

Lemma evaluateBoard_without_symbols_witness :
  wfBoard (boardOf 5 (replicate 25 Board.EMPTY)) /\
  evaluateBoard (gameEngine 5) (boardOf 5 (replicate 25 Board.EMPTY)) = 0.
Proof.
  assert (wfBoard (boardOf 5 (replicate 25 Board.EMPTY))) as Hwf
    by (apply wfBoard_boardOf; [lia | reflexivity]).
  split; [exact Hwf|].
  apply (evaluateBoard_without_symbols (gameEngine 5) _ Hwf); [discriminate|..];
    intros Hin; apply elem_of_replicate in Hin as [Hin _]; discriminate Hin.
Defined.

(** ** The range of the values of minimax *)

(** A loop of [minimax] over at least one child stays within a set of
    values that holds the values of the children and is closed under
    maximum and minimum. *)
Lemma maxLoop_closed (P : Z -> Prop) e rec emptyCells b maxEval alpha beta v b' :
  (forall x y, P x -> P y -> P (Z.max x y)) ->
  (forall x, P x -> Int32.INT_MIN <= x) ->
  restores rec -> emptyCells ⊆ Board.getEmptyCells b ->
  (forall i a be w, i ∈ emptyCells ->
     rec (Board.set b i (aiSymbol e)) a be false
       = Some (w, Board.set b i (aiSymbol e)) -> P w) ->
  (maxEval = Int32.INT_MIN /\ emptyCells <> []) \/ P maxEval ->
  maxLoop e rec emptyCells b maxEval alpha beta = Some (v, b') -> P v.
Proof.
  intros Hmax Hlow Hrec. revert maxEval alpha.
  induction emptyCells as [|i rest IH]; intros maxEval alpha Hsub Hch Hinit Hrun.
  - simpl in Hrun. simplify_eq. destruct Hinit as [[_ ?]|?]; done.
  - apply subseteq_cons_inv in Hsub as [Hi Hrest].
    destruct (rec (Board.set b i (aiSymbol e)) alpha beta false)
      as [[w bw]|] eqn:Hcall; [|simpl in Hrun; by rewrite Hcall in Hrun].
    pose proof (Hrec _ _ _ _ _ _ Hcall) as ->.
    rewrite (maxLoop_cons _ _ _ _ _ _ _ _ w) in Hrun by done.
    assert (P w) as Hw by (eapply Hch; [left|done]).
    assert (P (Z.max maxEval w)) as Hnew.
    { destruct Hinit as [[-> _]|Hinit]; [|by apply Hmax].
      rewrite Z.max_r; [done | by apply Hlow]. }
    destruct (beta <=? Z.max alpha w); [by simplify_eq|].
    eapply IH; [done| |by right|done].
    intros j a be w' Hj. apply Hch. by right.
Qed.

Lemma minLoop_closed (P : Z -> Prop) e rec emptyCells b minEval alpha beta v b' :
  (forall x y, P x -> P y -> P (Z.min x y)) ->
  (forall x, P x -> x <= Int32.INT_MAX) ->
  restores rec -> emptyCells ⊆ Board.getEmptyCells b ->
  (forall i a be w, i ∈ emptyCells ->
     rec (Board.set b i (humanSymbol e)) a be true
       = Some (w, Board.set b i (humanSymbol e)) -> P w) ->
  (minEval = Int32.INT_MAX /\ emptyCells <> []) \/ P minEval ->
  minLoop e rec emptyCells b minEval alpha beta = Some (v, b') -> P v.
Proof.
  intros Hmin Hhigh Hrec. revert minEval beta.
  induction emptyCells as [|i rest IH]; intros minEval beta Hsub Hch Hinit Hrun.
  - simpl in Hrun. simplify_eq. destruct Hinit as [[_ ?]|?]; done.
  - apply subseteq_cons_inv in Hsub as [Hi Hrest].
    destruct (rec (Board.set b i (humanSymbol e)) alpha beta true)
      as [[w bw]|] eqn:Hcall; [|simpl in Hrun; by rewrite Hcall in Hrun].
    pose proof (Hrec _ _ _ _ _ _ Hcall) as ->.
    rewrite (minLoop_cons _ _ _ _ _ _ _ _ w) in Hrun by done.
    assert (P w) as Hw by (eapply Hch; [left|done]).
    assert (P (Z.min minEval w)) as Hnew.
    { destruct Hinit as [[-> _]|Hinit]; [|by apply Hmin].
      rewrite Z.min_r; [done | by apply Hhigh]. }
    destruct (Z.min beta w <=? alpha); [by simplify_eq|].
    eapply IH; [done| |by right|done].
    intros j a be w' Hj. apply Hch. by right.
Qed.

Lemma countSymbol_all_uniform (b : Board.t) (s : ascii) (line : list Z) :
  countSymbol b s line = Z.of_nat (length line) -> uniform b s line.
Proof.
  induction line as [|idx line IH]; [constructor|].
  rewrite countSymbol_cons. simpl length.
  pose proof (countSymbol_bounds b s line).
  destruct (Ascii.eqb_spec (Board.get b idx) s); [|lia].
  intros Hc. constructor; [done|]. apply IH. lia.
Qed.

(** In a position the terminal tests let through, no line is taken by a
    symbol of the engine. *)
Lemma nonterminal_lines_open (e : AIEngine) (b : Board.t) :
  wfBoard b -> cellsOver e b ->
  aiSymbol e <> Board.EMPTY -> humanSymbol e <> Board.EMPTY ->
  Ascii.eqb (Board.checkWinner b) (aiSymbol e) = false ->
  Ascii.eqb (Board.checkWinner b) (humanSymbol e) = false ->
  Forall (fun line => ~ uniform b (aiSymbol e) line /\
                      ~ uniform b (humanSymbol e) line) (Board.winLines b).
Proof.
  intros Hwf Hover Hai Hh Hwa Hwh.
  assert (~ someLineWon b) as Hnot.
  { intros Hwon.
    destruct (Board.checkLines b (Board.winLines b)) as [f|] eqn:Hc.
    - pose proof Hc as [Hf Hin]%checkLines_Some_elem_of; [|done].
      unfold Board.checkWinner in Hwa, Hwh. rewrite Hc in Hwa, Hwh.
      apply Ascii.eqb_neq in Hwa, Hwh.
      unfold cellsOver in Hover. rewrite Forall_forall in Hover.
      destruct (Hover f Hin) as [?|[?|?]]; done.
    - apply checkLines_None_not_won in Hc; [done|by apply wfBoard_lines_nonempty]. }
  apply Forall_forall. intros line Hin.
  split; intros Hu; apply Hnot; [by exists line, (aiSymbol e) | by exists line, (humanSymbol e)].
Qed.

Lemma lineValue_open (e : AIEngine) (b : Board.t) (line : list Z) :
  3 <= Board.size b -> Z.of_nat (length line) = Board.size b ->
  ~ uniform b (aiSymbol e) line -> ~ uniform b (humanSymbol e) line ->
  -55000 <= lineValue e b line <= 55000.
Proof.
  intros Hn Hlen Hai Hh. unfold lineValue, lineContribution.
  pose proof (countSymbol_bounds b (aiSymbol e) line).
  pose proof (countSymbol_bounds b (humanSymbol e) line).
  assert (countSymbol b (aiSymbol e) line <> Board.size b) as Hca
    by (intros Hc; apply Hai, countSymbol_all_uniform; lia).
  assert (countSymbol b (humanSymbol e) line <> Board.size b) as Hch
    by (intros Hc; apply Hh, countSymbol_all_uniform; lia).
  repeat case_match; lia.
Qed.

Lemma evaluateBoard_nonterminal (e : AIEngine) (b : Board.t) :
  wfBoard b -> cellsOver e b -> aiSymbol e <> humanSymbol e ->
  aiSymbol e <> Board.EMPTY -> humanSymbol e <> Board.EMPTY ->
  Ascii.eqb (Board.checkWinner b) (aiSymbol e) = false ->
  Ascii.eqb (Board.checkWinner b) (humanSymbol e) = false ->
  -770000 <= evaluateBoard e b <= 770000.
Proof.
  intros Hwf Hover Hne Hai Hh Hwa Hwh. rewrite evaluateBoard_sum by done.
  pose proof (nonterminal_lines_open e b Hwf Hover Hai Hh Hwa Hwh) as Hopen.
  destruct (wfBoard_lines b Hwf) as [Hcount Hlines].
  destruct Hwf as (Hn & _ & _).
  enough (-55000 * Z.of_nat (length (Board.winLines b))
          <= sumZ (lineValue e b <$> Board.winLines b)
          <= 55000 * Z.of_nat (length (Board.winLines b))) by lia.
  clear Hcount. revert Hopen.
  induction Hlines as [|line lines (_ & Hlen & _) _ IH]; intros Hopen.
  - unfold sumZ; simpl; lia.
  - inversion Hopen as [|? ? [Ha Hb] Hrest]; subst.
    rewrite fmap_cons, sumZ_cons. simpl length.
    pose proof (lineValue_open e b line ltac:(lia) Hlen Ha Hb).
    specialize (IH Hrest). lia.
Qed.

Lemma minimax_within fuel e b depth alpha beta m v b' :
  wfBoard b -> cellsOver e b -> aiSymbol e <> humanSymbol e ->
  aiSymbol e <> Board.EMPTY -> humanSymbol e <> Board.EMPTY ->
  minimax fuel e b depth alpha beta m = Some (v, b') ->
  -1000000 <= v <= 1000000.
Proof.
  intros Hwf Hover Hne Hai Hh. revert b depth alpha beta m v b' Hwf Hover.
  induction fuel as [|fuel IH]; intros b depth alpha beta m v b' Hwf Hover.
  - discriminate.
  - rewrite minimax_S. cbv zeta. unfold WIN_SCORE, LOSS_SCORE.
    destruct (Ascii.eqb _ (aiSymbol e)) eqn:Hwa; [intros [= <- <-]; lia|].
    destruct (Ascii.eqb _ (humanSymbol e)) eqn:Hwh; [intros [= <- <-]; lia|].
    destruct (Ascii.eqb _ Board.DRAW) eqn:Hd; [intros [= <- <-]; lia|].
    destruct (depth =? 0).
    { intros [= <- <-].
      pose proof (evaluateBoard_nonterminal e b Hwf Hover Hne Hai Hh Hwa Hwh). lia. }
    pose proof (nonterminal_has_empty e b Hwf Hover Hwa Hwh Hd) as Hempty.
    destruct m.
    + apply (maxLoop_closed (fun x => -1000000 <= x <= 1000000));
        [lia|unfold Int32.INT_MIN; lia|apply minimax_restores|done| |by left].
      intros i a be w Hi. apply IH; [by apply wfBoard_set|].
      apply cellsOver_set; auto.
    + apply (minLoop_closed (fun x => -1000000 <= x <= 1000000));
        [lia|unfold Int32.INT_MAX; lia|apply minimax_restores|done| |by left].
      intros i a be w Hi. apply IH; [by apply wfBoard_set|].
      apply cellsOver_set; auto.
Qed.

(** X10. On a board of a legal size with cells over EMPTY and the two
    symbols of the engine (distinct, not EMPTY), every value [minimax]
    returns lies between the loss constant and the win constant: below the
    depth budget the evaluator stays within 770000 of zero, so a heuristic
    score never outranks a decided game. *)
Theorem minimax_between_loss_and_win
    (fuel : nat) (e : AIEngine) (b : Board.t) (depth alpha beta : Z)
    (isMaximizing : bool) (v : Z) (b' : Board.t) :
  wfBoard b -> cellsOver e b -> aiSymbol e <> humanSymbol e ->
  aiSymbol e <> Board.EMPTY -> humanSymbol e <> Board.EMPTY ->
  (minimax fuel e b depth alpha beta isMaximizing = Some (v, b') ->
   LOSS_SCORE <= v <= WIN_SCORE) /\
  (Board.checkWinner b <> aiSymbol e -> Board.checkWinner b <> humanSymbol e ->
   -770000 <= evaluateBoard e b <= 770000).
Proof.
  intros Hwf Hover Hne Hai Hh. split.
  - unfold LOSS_SCORE, WIN_SCORE. by apply minimax_within.
  - intros Hwa%Ascii.eqb_neq Hwh%Ascii.eqb_neq. by apply evaluateBoard_nonterminal.
Qed.

Lemma minimax_between_loss_and_win_witness :
  wfBoard (boardOf 3 ["X"; "O"; "X"; "O"; "O"; " "; " "; " "; " "]%char) /\
  minimax 101 (gameEngine 3)
    (boardOf 3 ["X"; "O"; "X"; "O"; "O"; " "; " "; " "; " "]%char) 1
    Int32.INT_MIN Int32.INT_MAX true
  = Some (-5000, boardOf 3 ["X"; "O"; "X"; "O"; "O"; " "; " "; " "; " "]%char) /\
  LOSS_SCORE <= -5000 <= WIN_SCORE.
Proof.
  assert (wfBoard (boardOf 3 ["X"; "O"; "X"; "O"; "O"; " "; " "; " "; " "]%char))
    as Hwf by (apply wfBoard_boardOf; [lia | reflexivity]).
  split; [exact Hwf|]. split; [vm_compute; reflexivity|].
  destruct (minimax_between_loss_and_win 101 (gameEngine 3)
              (boardOf 3 ["X"; "O"; "X"; "O"; "O"; " "; " "; " "; " "]%char) 1
              Int32.INT_MIN Int32.INT_MAX true (-5000)
              (boardOf 3 ["X"; "O"; "X"; "O"; "O"; " "; " "; " "; " "]%char) Hwf)
    as [Hrange _]; [solve_cellsOver|discriminate..|].
  apply Hrange. vm_compute; reflexivity.
Defined.

Lemma minimax_exact fuel e b depth alpha beta m v b' :
  wfBoard b -> cellsOver e b ->
  aiSymbol e <> Board.EMPTY -> humanSymbol e <> Board.EMPTY ->
  Z.of_nat (length (Board.getEmptyCells b)) <= depth <= Int32.INT_MAX ->
  minimax fuel e b depth alpha beta m = Some (v, b') ->
  v = 1000000 \/ v = 0 \/ v = -1000000.
Proof.
  intros Hwf Hover Hai Hh. revert b depth alpha beta m v b' Hwf Hover.
  induction fuel as [|fuel IH]; intros b depth alpha beta m v b' Hwf Hover Hdepth.
  - discriminate.
  - rewrite minimax_S. cbv zeta. unfold WIN_SCORE, LOSS_SCORE.
    destruct (Ascii.eqb _ (aiSymbol e)) eqn:Hwa; [intros [= <- <-]; auto|].
    destruct (Ascii.eqb _ (humanSymbol e)) eqn:Hwh; [intros [= <- <-]; auto|].
    destruct (Ascii.eqb _ Board.DRAW) eqn:Hd; [intros [= <- <-]; auto|].
    pose proof (nonterminal_has_empty e b Hwf Hover Hwa Hwh Hd) as Hempty.
    destruct (Z.eqb_spec depth 0) as [->|Hd0].
    { destruct (Board.getEmptyCells b); [done | simpl in Hdepth; lia]. }
    assert (forall i s w a be m' bw,
              i ∈ Board.getEmptyCells b -> s = aiSymbol e \/ s = humanSymbol e ->
              minimax fuel e (Board.set b i s) (Int32.sub depth 1) a be m'
                = Some (w, bw) ->
              w = 1000000 \/ w = 0 \/ w = -1000000) as Hchild.
    { intros i s w a be m' bw Hi Hs. apply IH.
      - by apply wfBoard_set.
      - apply cellsOver_set; [done | tauto].
      - assert (s <> Board.EMPTY) as Hne by (destruct Hs; congruence).
        pose proof (getEmptyCells_set_lt b i s Hi Hne).
        unfold Int32.INT_MAX in *. rewrite sub_small by lia. lia. }
    destruct m.
    + apply (maxLoop_closed (fun x => x = 1000000 \/ x = 0 \/ x = -1000000));
        [lia|unfold Int32.INT_MIN; lia|apply minimax_restores|done| |by left].
      intros i a be w Hi. apply Hchild; auto.
    + apply (minLoop_closed (fun x => x = 1000000 \/ x = 0 \/ x = -1000000));
        [lia|unfold Int32.INT_MAX; lia|apply minimax_restores|done| |by left].
      intros i a be w Hi. apply Hchild; auto.
Qed.

(** X11. When the depth budget is at least the number of empty cells, as
    100 is on the 3x3 board, the evaluator is never reached: [minimax]
    returns the win constant, 0 or the loss constant, and so does every
    candidate score of [getBestMove]. *)
Theorem minimax_exact_when_deep
    (fuel : nat) (e : AIEngine) (b : Board.t) (depth alpha beta : Z)
    (isMaximizing : bool) :
  wfBoard b -> cellsOver e b ->
  aiSymbol e <> Board.EMPTY -> humanSymbol e <> Board.EMPTY ->
  (forall v b',
     Z.of_nat (length (Board.getEmptyCells b)) <= depth <= Int32.INT_MAX ->
     minimax fuel e b depth alpha beta isMaximizing = Some (v, b') ->
     v = WIN_SCORE \/ v = 0 \/ v = LOSS_SCORE) /\
  (forall i s,
     Z.of_nat (length (Board.getEmptyCells b)) <= maxDepth e + 1 ->
     maxDepth e <= Int32.INT_MAX ->
     i ∈ Board.getEmptyCells b -> candidateScore fuel e b i = Some s ->
     s = WIN_SCORE \/ s = 0 \/ s = LOSS_SCORE).
Proof.
  intros Hwf Hover Hai Hh. unfold WIN_SCORE, LOSS_SCORE. split.
  - intros v b' Hdepth. by apply minimax_exact.
  - intros i s Hdepth Hmax Hi Hs. apply candidateScore_minimax in Hs.
    eapply minimax_exact; [by apply wfBoard_set| | | | |exact Hs]; try done.
    + apply cellsOver_set; auto.
    + pose proof (getEmptyCells_set_lt b i (aiSymbol e) Hi Hai). lia.
Qed.

Lemma minimax_exact_when_deep_witness :
  wfBoard (boardOf 3 ["X"; "O"; "X"; "O"; "O"; " "; " "; " "; " "]%char) /\
  minimax 101 (gameEngine 3)
    (boardOf 3 ["X"; "O"; "X"; "O"; "O"; " "; " "; " "; " "]%char) 100
    Int32.INT_MIN Int32.INT_MAX true
  = Some (-1000000, boardOf 3 ["X"; "O"; "X"; "O"; "O"; " "; " "; " "; " "]%char) /\
  (-1000000 = WIN_SCORE \/ -1000000 = 0 \/ -1000000 = LOSS_SCORE).
Proof.
  assert (wfBoard (boardOf 3 ["X"; "O"; "X"; "O"; "O"; " "; " "; " "; " "]%char))
    as Hwf by (apply wfBoard_boardOf; [lia | reflexivity]).
  split; [exact Hwf|]. split; [vm_compute; reflexivity|].
  destruct (minimax_exact_when_deep 101 (gameEngine 3)
              (boardOf 3 ["X"; "O"; "X"; "O"; "O"; " "; " "; " "; " "]%char) 100
              Int32.INT_MIN Int32.INT_MAX true Hwf) as [Hexact _];
    [solve_cellsOver|discriminate..|].
  apply (Hexact (-1000000)
           (boardOf 3 ["X"; "O"; "X"; "O"; "O"; " "; " "; " "; " "]%char)).
  - unfold Int32.INT_MAX. vm_compute. split; discriminate.
  - vm_compute; reflexivity.
Defined.

(** ** getBestMove and a move that wins at once *)

Lemma returnsWithin_positive fuel e b depth :
  returnsWithin fuel e b depth -> exists fuel', fuel = S fuel'.
Proof.
  intros [[? ?]|(_ & _ & ?)]; (destruct fuel; [lia | by eexists]).
Qed.

(** X12. When some empty cell completes a line for the engine,
    [getBestMove] returns a move whose score is the win constant: it does
    not pass up a won game for a heuristic gain. *)
Theorem getBestMove_keeps_win (fuel : nat) (e : AIEngine) (b : Board.t) (j : Z) :
  wfBoard b -> cellsOver e b -> returnsWithin fuel e b (maxDepth e) ->
  aiSymbol e <> humanSymbol e ->
  aiSymbol e <> Board.EMPTY -> humanSymbol e <> Board.EMPTY ->
  j ∈ Board.getEmptyCells b ->
  Board.checkWinner (Board.set b j (aiSymbol e)) = aiSymbol e ->
  exists i, getBestMove fuel e b = Some (i, b) /\
            i ∈ Board.getEmptyCells b /\
            candidateScore fuel e b i = Some WIN_SCORE.
Proof.
  intros Hwf Hover Hret Hne Hai Hh Hj Hwin.
  destruct (getBestMove_spec fuel e b Hwf Hover Hret) as [_ Hbest].
  destruct Hbest as (i & s & Hrun & Hi & Hs & Hall).
  { intros Hnil. rewrite Hnil in Hj. by apply not_elem_of_nil in Hj. }
  exists i. split; [done|]. split; [done|].
  destruct (Hall j Hj) as (sj & Hsj & Hle & _).
  destruct (returnsWithin_positive _ _ _ _ Hret) as [fuel' ->].
  assert (sj = WIN_SCORE) as ->.
  { unfold candidateScore in Hsj. rewrite minimax_S in Hsj. cbv zeta in Hsj.
    rewrite Hwin, Ascii.eqb_refl in Hsj. simpl in Hsj. congruence. }
  pose proof (candidateScore_minimax _ _ _ _ _ Hs) as Hmin.
  apply minimax_within in Hmin; try done.
  - rewrite Hs. f_equal. unfold WIN_SCORE in *. lia.
  - by apply wfBoard_set.
  - apply cellsOver_set; auto.
Qed.

Lemma getBestMove_keeps_win_witness :
  wfBoard (boardOf 3 ["X"; "X"; " "; "O"; "O"; " "; " "; " "; " "]%char) /\
  Board.checkWinner
    (Board.set (boardOf 3 ["X"; "X"; " "; "O"; "O"; " "; " "; " "; " "]%char)
               2 "X"%char) = "X"%char /\
  exists i,
    getBestMove 101 (gameEngine 3)
      (boardOf 3 ["X"; "X"; " "; "O"; "O"; " "; " "; " "; " "]%char)
    = Some (i, boardOf 3 ["X"; "X"; " "; "O"; "O"; " "; " "; " "; " "]%char) /\
    i ∈ Board.getEmptyCells
          (boardOf 3 ["X"; "X"; " "; "O"; "O"; " "; " "; " "; " "]%char) /\
    candidateScore 101 (gameEngine 3)
      (boardOf 3 ["X"; "X"; " "; "O"; "O"; " "; " "; " "; " "]%char) i
    = Some WIN_SCORE.
Proof.
  assert (wfBoard (boardOf 3 ["X"; "X"; " "; "O"; "O"; " "; " "; " "; " "]%char))
    as Hwf by (apply wfBoard_boardOf; [lia | reflexivity]).
  split; [exact Hwf|]. split; [reflexivity|].
  apply (getBestMove_keeps_win 101 (gameEngine 3)
           (boardOf 3 ["X"; "X"; " "; "O"; "O"; " "; " "; " "; " "]%char) 2 Hwf).
  - solve_cellsOver.
  - left. change (maxDepth (gameEngine 3)) with 100. unfold Int32.INT_MAX. lia.
  - discriminate.
  - discriminate.
  - discriminate.
  - apply elem_of_getEmptyCells. split; [lia | reflexivity].
  - reflexivity.
Defined.

(** * The game *)

(** ** getBestMove on the boards of a game *)

Lemma bestLoop_Some_candidates fuel e b emptyCells :
  emptyCells ⊆ Board.getEmptyCells b ->
  forall bestScore bestMove r,
    bestLoop fuel e emptyCells b bestScore bestMove = Some r ->
    forall j, j ∈ emptyCells -> is_Some (candidateScore fuel e b j).
Proof.
  induction emptyCells as [|i rest IH]; intros Hsub bestScore bestMove r Hrun j Hj.
  - by apply not_elem_of_nil in Hj.
  - apply subseteq_cons_inv in Hsub as [Hi Hrest].
    destruct (minimax fuel e (Board.set b i (aiSymbol e)) (maxDepth e)
                Int32.INT_MIN Int32.INT_MAX false) as [[w bw]|] eqn:Hcall;
      [|simpl in Hrun; by rewrite Hcall in Hrun].
    pose proof (minimax_restores _ _ _ _ _ _ _ _ _ Hcall) as ->.
    rewrite (bestLoop_cons _ _ _ _ _ _ _ w) in Hrun by done.
    apply elem_of_cons in Hj as [->|Hj].
    + unfold candidateScore. rewrite Hcall. by eexists.
    + destruct (bestScore <? w); by eapply IH.
Qed.

(** Whenever [getBestMove] returns on a board that is not full, it returns
    an empty cell. *)
Lemma getBestMove_Some_empty fuel e b move b' :
  wfBoard b -> cellsOver e b -> Board.getEmptyCells b <> [] ->
  getBestMove fuel e b = Some (move, b') ->
  b' = b /\ move ∈ Board.getEmptyCells b.
Proof.
  intros Hwf Hover Hne Hrun.
  pose proof (bestLoop_restores _ _ _ _ _ _ _ _ (reflexivity _) Hrun) as ->.
  split; [done|].
  pose proof (bestLoop_Some_candidates fuel e b _ (reflexivity _) _ _ _ Hrun) as Hsc.
  destruct (bestLoop_first_greatest fuel e b (Board.getEmptyCells b)
              (reflexivity _) Hsc Int32.INT_MIN (-1)) as (i & Hrun' & Hres).
  unfold getBestMove in Hrun. rewrite Hrun in Hrun'. simplify_eq.
  destruct Hres as [[_ Hall]|(s & pre & post & Heq & _)].
  - destruct (Board.getEmptyCells b) as [|j0 rest] eqn:Hcells; [done|].
    destruct (Hsc j0) as [s0 Hs0]; [left|].
    specialize (Hall j0 s0 ltac:(left) Hs0).
    apply candidateScore_minimax, minimax_bounds in Hs0;
      [|by apply wfBoard_set|apply cellsOver_set; auto].
    unfold Int32.INT_MIN in Hall. lia.
  - rewrite Heq. apply elem_of_app. right. left.
Qed.

Lemma getBestMove_returns fuel e b :
  returnsWithin fuel e b (maxDepth e) ->
  exists move, getBestMove fuel e b = Some (move, b).
Proof.
  intros Hret.
  destruct (bestLoopNoCutoff_returns fuel e (Board.getEmptyCells b) b)
    with (bestScore := Int32.INT_MIN) (bestMove := -1) as [move Hmove]; [done| |].
  { intros i Hi. by apply minimaxNoCutoff_returns, returnsWithin_set. }
  exists move. by apply bestLoop_full_window.
Qed.

Lemma getMaxDepth_range (boardSize : Z) : 4 <= getMaxDepth boardSize <= 100.
Proof. unfold getMaxDepth. repeat case_match; lia. Qed.

(** X13. [AIPlayer::getMove]: for every board size, the depth budget of
    [getMaxDepth] is from 4 to 100, and on a board of a legal size that is
    not full and holds only 'X', 'O' and EMPTY the engine of the game
    returns an EMPTY cell of the board and leaves the board as it was. *)
Theorem aiPlayer_move_legal (fuel : nat) (boardSize : Z) (b : Board.t) :
  wfBoard b -> cellsOver (gameEngine boardSize) b ->
  Board.isFull b = false -> (100 < fuel)%nat ->
  4 <= maxDepth (gameEngine boardSize) <= 100 /\
  exists move, getBestMove fuel (gameEngine boardSize) b = Some (move, b) /\
               legalMove b move.
Proof.
  intros Hwf Hover Hfull Hfuel.
  pose proof (getMaxDepth_range boardSize) as Hdepth.
  split; [done|].
  assert (returnsWithin fuel (gameEngine boardSize) b
            (maxDepth (gameEngine boardSize))) as Hret
    by (left; simpl; unfold Int32.INT_MAX; lia).
  destruct (getBestMove_returns fuel (gameEngine boardSize) b Hret)
    as (move & Hmove).
  exists move. split; [done|].
  apply getBestMove_Some_empty in Hmove as [_ Hin];
    [|done..|by apply isFull_false_empty_cell].
  apply elem_of_getEmptyCells in Hin as [Hi Hl].
  pose proof (lookup_lt_Some _ _ _ Hl) as Hlt.
  destruct Hwf as (Hn & Hlen & _). split; [lia|].
  unfold Board.isEmpty. by apply Ascii.eqb_eq, get_EMPTY_lookup.
Qed.

Lemma aiPlayer_move_legal_witness :
  wfBoard (boardOf 4 (replicate 15 "O"%char ++ [" "%char])) /\
  Board.isFull (boardOf 4 (replicate 15 "O"%char ++ [" "%char])) = false /\
  exists move,
    getBestMove 101 (gameEngine 4) (boardOf 4 (replicate 15 "O"%char ++ [" "%char]))
    = Some (move, boardOf 4 (replicate 15 "O"%char ++ [" "%char])) /\
    legalMove (boardOf 4 (replicate 15 "O"%char ++ [" "%char])) move.
Proof.
  assert (wfBoard (boardOf 4 (replicate 15 "O"%char ++ [" "%char])))
    as Hwf by (apply wfBoard_boardOf; [lia | reflexivity]).
  split; [exact Hwf|]. split; [reflexivity|].
  destruct (aiPlayer_move_legal 101 4
              (boardOf 4 (replicate 15 "O"%char ++ [" "%char])) Hwf)
    as [_ Hmove]; [solve_cellsOver|reflexivity|lia|exact Hmove].
Defined.

(** ** The loop of play *)

Lemma cellsOver_symbols (boardSize : Z) (b : Board.t) (f : ascii) :
  cellsOver (gameEngine boardSize) b -> f ∈ Board.cells b ->
  f = Board.EMPTY \/ f = "X"%char \/ f = "O"%char.
Proof.
  unfold cellsOver. rewrite Forall_forall. intros Hover Hin. exact (Hover f Hin).
Qed.

(** On a board of the game, [checkWinner] reports 'X', 'O', a draw or no
    winner, and a winner or a draw when the board is full. *)
Lemma checkWinner_game (boardSize : Z) (b : Board.t) :
  wfBoard b -> cellsOver (gameEngine boardSize) b ->
  (Board.checkWinner b = "X"%char \/ Board.checkWinner b = "O"%char \/
   Board.checkWinner b = Board.DRAW) \/
  (Board.checkWinner b = Board.NO_WINNER /\ Board.isFull b = false).
Proof.
  intros Hwf Hover. unfold Board.checkWinner.
  destruct (Board.checkLines b (Board.winLines b)) as [f|] eqn:Hc.
  - apply checkLines_Some_elem_of in Hc as [Hf Hin]; [|done].
    destruct (cellsOver_symbols _ _ _ Hover Hin) as [?|[?|?]]; [done|auto..].
  - destruct (Board.isFull b); auto.
Qed.

Lemma playLoop_S turns fuel ai human board currentPlayer input :
  playLoop (S turns) fuel ai human board currentPlayer input =
  if Board.isFull board then Some board
  else
    let moved :=
      match currentPlayer with
      | Human =>
          match humanGetMove board input with
          | Some (move, input) => Some (move, human, board, input)
          | None => None
          end
      | AI =>
          match getBestMove fuel ai board with
          | Some (move, board) => Some (move, aiSymbol ai, board, input)
          | None => None
          end
      end in
    match moved with
    | None => None
    | Some (move, symbol, board, input) =>
        let board := Board.set board move symbol in
        let winner := Board.checkWinner board in
        if negb (Ascii.eqb winner Board.NO_WINNER) then Some board
        else playLoop turns fuel ai human board (otherPlayer currentPlayer) input
    end.
Proof. reflexivity. Qed.

(** What one turn of the loop does to a board of the game that is not
    full: the player to move writes the own symbol on an empty cell. *)
Lemma play_move (fuel : nat) (boardSize : Z) (b : Board.t) (p : Player)
    (input : list Z) move symbol b1 input1 :
  wfBoard b -> cellsOver (gameEngine boardSize) b -> Board.isFull b = false ->
  match p with
  | Human =>
      match humanGetMove b input with
      | Some (move, input) => Some (move, "O"%char, b, input)
      | None => None
      end
  | AI =>
      match getBestMove fuel (gameEngine boardSize) b with
      | Some (move, board) => Some (move, "X"%char, board, input)
      | None => None
      end
  end = Some (move, symbol, b1, input1) ->
  b1 = b /\ move ∈ Board.getEmptyCells b /\
  symbol = match p with Human => "O"%char | AI => "X"%char end.
Proof.
  intros Hwf Hover Hfull Hmoved. destruct p.
  - destruct (humanGetMove b input) as [[m input']|] eqn:Hm; [|done].
    simplify_eq. apply humanGetMove_legal in Hm as [_ Hempty].
    split; [done|]. split; [|done].
    apply elem_of_getEmptyCells, get_EMPTY_lookup.
    by apply Ascii.eqb_eq.
  - destruct (getBestMove fuel (gameEngine boardSize) b) as [[m b2]|] eqn:Hm; [|done].
    simplify_eq.
    apply getBestMove_Some_empty in Hm as [-> Hin];
      [done|done..|by apply isFull_false_empty_cell].
Qed.

Lemma playLoop_invariant (boardSize : Z) (turns fuel : nat) :
  forall b p input final,
    wfBoard b -> cellsOver (gameEngine boardSize) b ->
    playLoop turns fuel (gameEngine boardSize) "O"%char b p input = Some final ->
    wfBoard final /\ Board.size final = Board.size b /\
    cellsOver (gameEngine boardSize) final /\
    (Board.checkWinner final = "X"%char \/ Board.checkWinner final = "O"%char \/
     Board.checkWinner final = Board.DRAW).
Proof.
  induction turns as [|turns IH]; intros b p input final Hwf Hover; [done|].
  rewrite playLoop_S. cbv zeta.
  destruct (Board.isFull b) eqn:Hfull.
  { intros [= <-]. split; [done|]. split; [done|]. split; [done|].
    destruct (checkWinner_game boardSize b Hwf Hover) as [?|[_ ?]]; [done|congruence]. }
  match goal with |- context [match ?m with Some _ => _ | None => None end = _] =>
    destruct m as [[[[move symbol] b1] input1]|] eqn:Hmoved end; [|done].
  apply (play_move fuel boardSize b p input) in Hmoved as (-> & Hin & Hsym);
    [|done..].
  assert (wfBoard (Board.set b move symbol)) as Hwf' by (by apply wfBoard_set).
  assert (cellsOver (gameEngine boardSize) (Board.set b move symbol)) as Hover'
    by (apply cellsOver_set; [done|]; destruct p; subst; simpl; auto).
  assert (Board.size (Board.set b move symbol) = Board.size b) as Hsize
    by (unfold Board.set; by destruct (move <? 0)).
  destruct (Ascii.eqb_spec (Board.checkWinner (Board.set b move symbol))
              Board.NO_WINNER) as [Hnw|Hnw]; simpl.
  - intros Hrun. apply IH in Hrun; [|done..]. by rewrite Hsize in Hrun.
  - intros [= <-]. split; [done|]. split; [done|]. split; [done|].
    destruct (checkWinner_game boardSize _ Hwf' Hover') as [?|[? _]]; done.
Qed.

(** X14. A game that ends, on any legal board size, ends on a board of
    that size holding only 'X', 'O' and EMPTY on which [checkWinner]
    reports 'X', 'O' or a draw: the outcome announced is never "no
    winner". *)
Theorem play_ends_decided
    (turns fuel : nat) (boardSize : Z) (first : Player) (input : list Z)
    (final : Board.t) :
  play turns fuel boardSize first input = Some final ->
  3 <= boardSize <= 6 /\ wfBoard final /\ Board.size final = boardSize /\
  cellsOver (gameEngine boardSize) final /\
  (Board.checkWinner final = "X"%char \/ Board.checkWinner final = "O"%char \/
   Board.checkWinner final = Board.DRAW).
Proof.
  unfold play. intros Hplay.
  assert (3 <= boardSize <= 6) as Hn.
  { destruct (Z.le_gt_cases 3 boardSize), (Z.le_gt_cases boardSize 6); [done|..];
      by rewrite create_None in Hplay by lia. }
  split; [done|]. rewrite create_Some in Hplay by done.
  apply playLoop_invariant in Hplay.
  - done.
  - apply wfBoard_boardOf; [done | by rewrite length_replicate].
  - unfold cellsOver. simpl. apply Forall_forall.
    intros c [-> _]%elem_of_replicate. by left.
Qed.

Lemma play_ends_decided_witness :
  play 10 101 3 Human [4; 4; 0; 9; 2; 6; 3; 5; 7; 8; 1]
  = Some (boardOf 3 ["X"; "X"; "O"; "O"; "O"; "X"; "X"; "O"; "O"]%char) /\
  (Board.checkWinner (boardOf 3 ["X"; "X"; "O"; "O"; "O"; "X"; "X"; "O"; "O"]%char)
   = "X"%char \/
   Board.checkWinner (boardOf 3 ["X"; "X"; "O"; "O"; "O"; "X"; "X"; "O"; "O"]%char)
   = "O"%char \/
   Board.checkWinner (boardOf 3 ["X"; "X"; "O"; "O"; "O"; "X"; "X"; "O"; "O"]%char)
   = Board.DRAW).
Proof.
  assert (play 10 101 3 Human [4; 4; 0; 9; 2; 6; 3; 5; 7; 8; 1]
          = Some (boardOf 3 ["X"; "X"; "O"; "O"; "O"; "X"; "X"; "O"; "O"]%char))
    as Hplay by (vm_compute; reflexivity).
  split; [exact Hplay|].
  by destruct (play_ends_decided 10 101 3 Human [4; 4; 0; 9; 2; 6; 3; 5; 7; 8; 1]
                 _ Hplay) as (_ & _ & _ & _ & Hw).
Defined.

Lemma filter_length_all {A : Type} (p : A -> bool) (l : list A) :
  (length (List.filter p l) <= length l)%nat.
Proof. induction l as [|x l IH]; simpl; [done|]. destruct (p x); simpl; lia. Qed.

Lemma getEmptyCells_length (b : Board.t) :
  (length (Board.getEmptyCells b) <= length (Board.cells b))%nat.
Proof.
  rewrite getEmptyCells_filter.
  etransitivity; [apply filter_length_all|]. rewrite length_seqZ. lia.
Qed.

Lemma playLoop_turn_bound (boardSize : Z) (fuel : nat) :
  forall turns turns' b p input,
    wfBoard b -> cellsOver (gameEngine boardSize) b ->
    (length (Board.getEmptyCells b) <= turns)%nat -> (1 <= turns)%nat ->
    (turns <= turns')%nat ->
    playLoop turns' fuel (gameEngine boardSize) "O"%char b p input
    = playLoop turns fuel (gameEngine boardSize) "O"%char b p input.
Proof.
  induction turns as [|turns IH]; intros turns' b p input Hwf Hover Hlen H1 Hle;
    [lia|].
  destruct turns' as [|turns']; [lia|].
  rewrite !playLoop_S. cbv zeta.
  destruct (Board.isFull b) eqn:Hfull; [done|].
  match goal with |- context [match ?m with Some _ => _ | None => None end] =>
    destruct m as [[[[move symbol] b1] input1]|] eqn:Hmoved end; [|done].
  apply (play_move fuel boardSize b p input) in Hmoved as (-> & Hin & Hsym);
    [|done..].
  assert (symbol <> Board.EMPTY) as Hne by (destruct p; subst; discriminate).
  assert (wfBoard (Board.set b move symbol)) as Hwf' by (by apply wfBoard_set).
  assert (cellsOver (gameEngine boardSize) (Board.set b move symbol)) as Hover'
    by (apply cellsOver_set; [done|]; destruct p; subst; simpl; auto).
  pose proof (getEmptyCells_set_lt b move symbol Hin Hne) as Hlt.
  destruct (Ascii.eqb_spec (Board.checkWinner (Board.set b move symbol))
              Board.NO_WINNER) as [Hnw|Hnw]; simpl; [|done].
  apply IH; [done|done|lia| |lia].
  destruct (checkWinner_game boardSize _ Hwf' Hover') as [[Hw|[Hw|Hw]]|[_ Hopen]];
    [rewrite Hnw in Hw; discriminate Hw..|].
  apply isFull_false_empty_cell in Hopen.
  destruct (Board.getEmptyCells (Board.set b move symbol)); [done | simpl in *; lia].
Qed.

(** X15. The loop of [play] goes round at most size*size times: with that
    many turns allowed, allowing more changes nothing, since every turn
    fills one empty cell and the turn that fills the last one ends the
    game. *)
Theorem play_turn_bound
    (turns turns' fuel : nat) (boardSize : Z) (first : Player) (input : list Z) :
  boardSize * boardSize <= Z.of_nat turns -> (turns <= turns')%nat ->
  play turns' fuel boardSize first input = play turns fuel boardSize first input.
Proof.
  intros Hturns Hle. unfold play.
  destruct (Z.le_gt_cases 3 boardSize); [|by rewrite create_None by lia].
  destruct (Z.le_gt_cases boardSize 6); [|by rewrite create_None by lia].
  rewrite create_Some by done.
  apply playLoop_turn_bound.
  - apply wfBoard_boardOf; [done | by rewrite length_replicate].
  - unfold cellsOver. simpl. apply Forall_forall.
    intros c [-> _]%elem_of_replicate. by left.
  - etransitivity; [apply getEmptyCells_length|]. simpl.
    rewrite length_replicate. lia.
  - nia.
  - done.
Qed.

Lemma play_turn_bound_witness :
  3 * 3 <= Z.of_nat 9 /\
  play 50 101 3 Human [4; 4; 0; 9; 2; 6; 3; 5; 7; 8; 1]
  = play 9 101 3 Human [4; 4; 0; 9; 2; 6; 3; 5; 7; 8; 1].
Proof.
  split; [simpl; lia|].
  apply (play_turn_bound 9 50 101 3 Human [4; 4; 0; 9; 2; 6; 3; 5; 7; 8; 1]);
    [simpl; lia | lia].
Defined.

(** ** main *)





(** * The indices the board is read at *)

(** X17. On a board of a legal size every win line is non-empty and names
    cells of the board only, so [checkWinner] and [evaluateBoard] read
    [line[0]] and [cells[idx]] inside their vectors; and the searches write
    only to indices that [getEmptyCells] returned, which are cells of the
    board as well. *)
Theorem board_accesses_in_range (b : Board.t) :
  wfBoard b ->
  Forall (fun line =>
            line <> [] /\
            Forall (fun idx => 0 <= idx < Z.of_nat (length (Board.cells b))) line)
         (Board.winLines b) /\
  Forall (fun i => 0 <= i < Z.of_nat (length (Board.cells b)))
         (Board.getEmptyCells b) /\
  Z.of_nat (length (Board.cells b)) = Board.size b * Board.size b.
Proof.
  intros Hwf. split; [|split].
  - destruct (wfBoard_lines b Hwf) as [_ Hlines].
    eapply Forall_impl; [exact Hlines|]. by intros line (? & _ & ?).
  - apply Forall_forall. intros i [Hi Hl]%elem_of_getEmptyCells.
    apply lookup_lt_Some in Hl. lia.
  - destruct Hwf as (Hn & -> & _). nia.
Qed.

Lemma board_accesses_in_range_witness :
  wfBoard (boardOf 6 (replicate 36 Board.EMPTY)) /\
  Forall (fun line =>
            line <> [] /\ Forall (fun idx => 0 <= idx < 36) line)
         (Board.generateWinLines 6).
Proof.
  assert (wfBoard (boardOf 6 (replicate 36 Board.EMPTY))) as Hwf
    by (apply wfBoard_boardOf; [lia | reflexivity]).
  split; [exact Hwf|].
  by destruct (board_accesses_in_range (boardOf 6 (replicate 36 Board.EMPTY)) Hwf)
    as [Hlines _].
Defined.
